(** * aidit: the edit-history store and the image cache

    A shallow embedding of two TypeScript modules of the application,

    - [src/stores/editor-store.ts]: the zustand store holding the active
      editing session with its undo/redo history;
    - [src/services/cache/image-cache.ts]: the [ImageCache] class, an index
      of cached image files with size-based eviction and age-based cleanup;

    followed by the properties of the natural-language specification that
    were checked against them. *)

From Stdlib Require Import ZArith Lia Ascii.
From stdpp Require Import base tactics option list strings pretty gmap.

Local Open Scope Z_scope.

(** ** JavaScript values shared by both modules *)

(** What a JavaScript call can throw in the modelled code. *)
Inductive js_error : Type :=
  | TypeError                          (* property read on [undefined] *)
  | SyntaxError                        (* [JSON.parse] on malformed text *)
  | FsError (call : string)        (* a rejected [expo-file-system] promise *)
  | Error (message : string) (cause : js_error).  (* [new Error(`...`)] *)

(** A call either returns or throws. *)
Inductive outcome (A : Type) : Type :=
  | Returns (a : A)
  | Throws (e : js_error).
Arguments Returns {A} a.
Arguments Throws {A} e.

(** [arr[i]] for a number [i]: [undefined] (here [None]) out of range. *)
Definition js_index {A} (arr : list A) (i : Z) : option A :=
  if i <? 0 then None else arr !! Z.to_nat i.

(** [arr.slice(0, e)]: a negative [e] counts from the end. *)
Definition js_slice0 {A} (arr : list A) (e : Z) : list A :=
  if e <? 0 then take (length arr - Z.to_nat (- e))%nat arr
  else take (Z.to_nat e) arr.

(** A JavaScript number as the modelled code meets it: an integer (sizes
    in bytes, times in milliseconds; integers below 2^53 in magnitude are
    exact in JavaScript's doubles), or [NaN], which arithmetic on
    [undefined] yields. Arithmetic with [NaN] gives [NaN], and every
    comparison with [NaN] is false. *)
Inductive number : Type :=
  | Num (z : Z)
  | NaN.

Coercion Num : Z >-> number.

Definition num_add (a b : number) : number :=
  match a, b with
  | Num x, Num y => Num (x + y)
  | _, _ => NaN
  end.

Definition num_sub (a b : number) : number :=
  match a, b with
  | Num x, Num y => Num (x - y)
  | _, _ => NaN
  end.

(** [a <= b] *)
Definition num_leb (a b : number) : bool :=
  match a, b with
  | Num x, Num y => x <=? y
  | _, _ => false
  end.

Definition num_le (a b : number) : Prop := num_leb a b = true.

Declare Scope number_scope.
Delimit Scope number_scope with num.
Bind Scope number_scope with number.
Infix "+" := num_add : number_scope.
Infix "-" := num_sub : number_scope.
Infix "<=?" := num_leb : number_scope.
Infix "<=" := num_le : number_scope.

(** ** [src/stores/editor-store.ts] *)

Module EditorStore.

Inductive AITool : Type :=
  | auto_enhance | background_removal | object_removal | tap_edit
  | portrait_enhance | meet | animate | smart_crop.

Record ImageState : Type := mkImageState {
  uri : string;
  timestamp : Z;
  tool : option AITool;
}.

Record EditSession : Type := mkEditSession {
  id : string;
  originalUri : string;
  currentUri : string;
  history : list ImageState;
  historyIndex : Z;
  createdAt : Z;
  updatedAt : Z;
}.

Inductive SelectionType : Type := brush | lasso | tap.

(** The store never looks inside a selection; coordinates are kept as
    integers. *)
Record Selection : Type := mkSelection {
  type : SelectionType;
  points : list (Z * Z);
  maskUri : option string;
}.

Record EditorState : Type := mkEditorState {
  currentSession : option EditSession;
  isProcessing : bool;
  processingMessage : string;
  selectedTool : option AITool;
  selection : option Selection;
  showCompare : bool;
  showHistory : bool;
  recentEdits : list EditSession;
}.

(** The state [create] is called with. *)
Definition initialState : EditorState :=
  {| currentSession := None; isProcessing := false; processingMessage := "";
     selectedTool := None; selection := None;
     showCompare := false; showHistory := false; recentEdits := [] |}.

(** zustand's [set({ currentSession: ... })]: a partial update. *)
Definition set_currentSession (cs : option EditSession) (st : EditorState)
  : EditorState :=
  {| currentSession := cs; isProcessing := isProcessing st;
     processingMessage := processingMessage st;
     selectedTool := selectedTool st; selection := selection st;
     showCompare := showCompare st; showHistory := showHistory st;
     recentEdits := recentEdits st |}.

(** Every [Date.now()] of an action is an argument, in call order. *)
Definition startSession (imageUri : string) (tId tState tCreated tUpdated : Z)
    (st : EditorState) : outcome EditorState :=
  let session :=
    {| id := "session_" +:+ pretty tId;
       originalUri := imageUri;
       currentUri := imageUri;
       history := [ {| uri := imageUri; timestamp := tState; tool := None |} ];
       historyIndex := 0;
       createdAt := tCreated;
       updatedAt := tUpdated |} in
  Returns
    {| currentSession := Some session; isProcessing := isProcessing st;
       processingMessage := processingMessage st;
       selectedTool := None; selection := None;
       showCompare := false; showHistory := false;
       recentEdits := recentEdits st |}.

Definition endSession (st : EditorState) : outcome EditorState :=
  let st1 :=
    match currentSession st with
    | Some cs =>
        if (1 <? Z.of_nat (length (history cs)))
        then {| currentSession := currentSession st;
                isProcessing := isProcessing st;
                processingMessage := processingMessage st;
                selectedTool := selectedTool st; selection := selection st;
                showCompare := showCompare st; showHistory := showHistory st;
                recentEdits := take 20 (cs :: recentEdits st) |}
        else st
    | None => st
    end in
  Returns
    {| currentSession := None; isProcessing := isProcessing st1;
       processingMessage := processingMessage st1;
       selectedTool := None; selection := None;
       showCompare := showCompare st1; showHistory := showHistory st1;
       recentEdits := recentEdits st1 |}.

Definition applyEdit (newUri : string) (tool_ : AITool) (tState tUpdated : Z)
    (st : EditorState) : outcome EditorState :=
  match currentSession st with
  | None => Returns st
  | Some cs =>
      let newState :=
        {| uri := newUri; timestamp := tState; tool := Some tool_ |} in
      let newHistory :=
        js_slice0 (history cs) (historyIndex cs + 1) ++ [newState] in
      Returns (set_currentSession
        (Some {| id := id cs; originalUri := originalUri cs;
                 currentUri := newUri;
                 history := newHistory;
                 historyIndex := Z.of_nat (length newHistory) - 1;
                 createdAt := createdAt cs;
                 updatedAt := tUpdated |}) st)
  end.

(** The session with the cursor moved to [newIndex]; reading [.uri] of a
    missing history element throws. *)
Definition moveTo (newIndex now : Z) (cs : EditSession) (st : EditorState)
  : outcome EditorState :=
  match js_index (history cs) newIndex with
  | None => Throws TypeError
  | Some h =>
      Returns (set_currentSession
        (Some {| id := id cs; originalUri := originalUri cs;
                 currentUri := uri h;
                 history := history cs;
                 historyIndex := newIndex;
                 createdAt := createdAt cs;
                 updatedAt := now |}) st)
  end.

Definition undo (now : Z) (st : EditorState) : outcome EditorState :=
  match currentSession st with
  | None => Returns st
  | Some cs =>
      if historyIndex cs <=? 0 then Returns st
      else moveTo (historyIndex cs - 1) now cs st
  end.

Definition redo (now : Z) (st : EditorState) : outcome EditorState :=
  match currentSession st with
  | None => Returns st
  | Some cs =>
      if historyIndex cs >=? Z.of_nat (length (history cs)) - 1 then Returns st
      else moveTo (historyIndex cs + 1) now cs st
  end.

Definition canUndo (st : EditorState) : bool :=
  match currentSession st with
  | None => false
  | Some cs => 0 <? historyIndex cs
  end.

Definition canRedo (st : EditorState) : bool :=
  match currentSession st with
  | None => false
  | Some cs => historyIndex cs <? Z.of_nat (length (history cs)) - 1
  end.

Definition setTool (t : option AITool) (st : EditorState)
  : outcome EditorState :=
  Returns
    {| currentSession := currentSession st; isProcessing := isProcessing st;
       processingMessage := processingMessage st;
       selectedTool := t; selection := selection st;
       showCompare := showCompare st; showHistory := showHistory st;
       recentEdits := recentEdits st |}.

Definition setSelection (s : option Selection) (st : EditorState)
  : outcome EditorState :=
  Returns
    {| currentSession := currentSession st; isProcessing := isProcessing st;
       processingMessage := processingMessage st;
       selectedTool := selectedTool st; selection := s;
       showCompare := showCompare st; showHistory := showHistory st;
       recentEdits := recentEdits st |}.

Definition setProcessing (processing : bool) (message : option string)
    (st : EditorState) : outcome EditorState :=
  Returns
    {| currentSession := currentSession st; isProcessing := processing;
       processingMessage := default "" message;
       selectedTool := selectedTool st; selection := selection st;
       showCompare := showCompare st; showHistory := showHistory st;
       recentEdits := recentEdits st |}.

Definition toggleCompare (st : EditorState) : outcome EditorState :=
  Returns
    {| currentSession := currentSession st; isProcessing := isProcessing st;
       processingMessage := processingMessage st;
       selectedTool := selectedTool st; selection := selection st;
       showCompare := negb (showCompare st); showHistory := showHistory st;
       recentEdits := recentEdits st |}.

Definition toggleHistory (st : EditorState) : outcome EditorState :=
  Returns
    {| currentSession := currentSession st; isProcessing := isProcessing st;
       processingMessage := processingMessage st;
       selectedTool := selectedTool st; selection := selection st;
       showCompare := showCompare st; showHistory := negb (showHistory st);
       recentEdits := recentEdits st |}.

Definition set_recentEdits (r : list EditSession) (st : EditorState)
  : EditorState :=
  {| currentSession := currentSession st; isProcessing := isProcessing st;
     processingMessage := processingMessage st;
     selectedTool := selectedTool st; selection := selection st;
     showCompare := showCompare st; showHistory := showHistory st;
     recentEdits := r |}.

Definition addRecentEdit (session : EditSession) (st : EditorState)
  : outcome EditorState :=
  Returns (set_recentEdits (take 20 (session :: recentEdits st)) st).

Definition removeRecentEdit (id_ : string) (st : EditorState)
  : outcome EditorState :=
  Returns (set_recentEdits
             (filter (fun e => id e ≠ id_) (recentEdits st)) st).

(** The actions a client can dispatch, with the clock readings each takes. *)
Inductive action : Type :=
  | StartSession (imageUri : string) (tId tState tCreated tUpdated : Z)
  | EndSession
  | ApplyEdit (newUri : string) (tool_ : AITool) (tState tUpdated : Z)
  | Undo (now : Z)
  | Redo (now : Z)
  | SetTool (t : option AITool)
  | SetSelection (s : option Selection)
  | SetProcessing (processing : bool) (message : option string)
  | ToggleCompare
  | ToggleHistory
  | AddRecentEdit (session : EditSession)
  | RemoveRecentEdit (id_ : string).

Definition dispatch (a : action) (st : EditorState) : outcome EditorState :=
  match a with
  | StartSession u t1 t2 t3 t4 => startSession u t1 t2 t3 t4 st
  | EndSession => endSession st
  | ApplyEdit u t t1 t2 => applyEdit u t t1 t2 st
  | Undo now => undo now st
  | Redo now => redo now st
  | SetTool t => setTool t st
  | SetSelection s => setSelection s st
  | SetProcessing p m => setProcessing p m st
  | ToggleCompare => toggleCompare st
  | ToggleHistory => toggleHistory st
  | AddRecentEdit s => addRecentEdit s st
  | RemoveRecentEdit i => removeRecentEdit i st
  end.

(** Dispatching a sequence of actions; a throw aborts the rest. *)
Fixpoint run (acts : list action) (st : EditorState) : outcome EditorState :=
  match acts with
  | [] => Returns st
  | a :: rest =>
      match dispatch a st with
      | Returns st' => run rest st'
      | Throws e => Throws e
      end
  end.

(** The active state the cursor points at, as the spec derives it. *)
Definition activeState (cs : EditSession) : option ImageState :=
  js_index (history cs) (historyIndex cs).

(** A session whose cursor is inside its history and whose redundant
    [currentUri] agrees with the state under the cursor. *)
Definition session_ok (cs : EditSession) : Prop :=
  0 <= historyIndex cs < Z.of_nat (length (history cs)) /\
  uri <$> activeState cs = Some (currentUri cs).

Definition state_ok (st : EditorState) : Prop :=
  forall cs, currentSession st = Some cs -> session_ok cs.

(** Scenario B of the specification, up to the undo, and the session it
    leaves. *)
Definition scenarioB : list action :=
  [ StartSession "orig.jpg" 1000 1000 1000 1000;
    ApplyEdit "e1.jpg" auto_enhance 2000 2000;
    Undo 3000 ].

Definition sessionB : EditSession :=
  {| id := "session_1000"; originalUri := "orig.jpg";
     currentUri := "orig.jpg";
     history :=
       [ {| uri := "orig.jpg"; timestamp := 1000; tool := None |};
         {| uri := "e1.jpg"; timestamp := 2000; tool := Some auto_enhance |} ];
     historyIndex := 0; createdAt := 1000; updatedAt := 3000 |}.

(** *** Further notions about sessions *)

(** The session with only [updatedAt] set anew. *)
Definition touched (now : Z) (cs : EditSession) : EditSession :=
  {| id := id cs; originalUri := originalUri cs; currentUri := currentUri cs;
     history := history cs; historyIndex := historyIndex cs;
     createdAt := createdAt cs; updatedAt := now |}.

(** The first history entry is the original image, made by no tool. *)
Definition starts_with_original (cs : EditSession) : Prop :=
  exists h, history cs !! 0%nat = Some h /\
            uri h = originalUri cs /\ tool h = None.

(** An edit to apply: the new uri, the tool and the two clock readings. *)
Definition edit : Type := string * AITool * Z * Z.

Definition ApplyEdits (edits : list edit) : list action :=
  (fun e : edit => ApplyEdit e.1.1.1 e.1.1.2 e.1.2 e.2) <$> edits.

(** The history state an edit leaves. *)
Definition state_of (e : edit) : ImageState :=
  {| uri := e.1.1.1; timestamp := e.1.2; tool := Some e.1.1.2 |}.

(** Is the action the direct insertion of a session among the recent
    ones? *)
Definition is_AddRecentEdit (a : action) : bool :=
  match a with
  | AddRecentEdit _ => true
  | _ => false
  end.

(** Is the action one of the three that write the list of recent
    sessions? *)
Definition changes_recent (a : action) : bool :=
  match a with
  | EndSession | AddRecentEdit _ | RemoveRecentEdit _ => true
  | _ => false
  end.

(** A session as [endSession] archives it: well-formed, with an edit. *)
Definition archived_ok (cs : EditSession) : Prop :=
  session_ok cs /\ (1 < length (history cs))%nat.

(** Three edits in a row, for the examples. *)
Definition three_edits : list edit :=
  [ ("e1.jpg", auto_enhance, 2000, 2001);
    ("e2.jpg", smart_crop, 3000, 3001);
    ("e3.jpg", portrait_enhance, 4000, 4001) ].

End EditorStore.

(** ** [src/services/cache/image-cache.ts] *)

Module ImageCache.

(** *** Plain JavaScript objects used as dictionaries

    [Record<string, V>] keeps its keys in insertion order, which
    [Object.keys] and [Object.entries] expose and the eviction order depends
    on: an object is an association list without repeated keys ([obj_wf]).
    (JavaScript lists integer-like keys first; the keys built by
    [generateKey] contain an underscore and are never integer-like.) *)
Definition obj (V : Type) : Type := list (string * V).

Definition obj_keys {V} (o : obj V) : list string := o.*1.

Definition obj_wf {V} (o : obj V) : Prop := NoDup (obj_keys o).

(** The own property [k] of [o], if [o] has one. *)
Fixpoint obj_get {V} (k : string) (o : obj V) : option V :=
  match o with
  | [] => None
  | (k', v) :: o' => if decide (k' = k) then Some v else obj_get k o'
  end.

(** [o[k] = v]: an existing key keeps its place, a new one goes last. *)
Fixpoint obj_set {V} (k : string) (v : V) (o : obj V) : obj V :=
  match o with
  | [] => [(k, v)]
  | (k', v') :: o' =>
      if decide (k' = k) then (k', v) :: o' else (k', v') :: obj_set k v o'
  end.

(** [delete o[k]] *)
Fixpoint obj_delete {V} (k : string) (o : obj V) : obj V :=
  match o with
  | [] => []
  | (k', v') :: o' =>
      if decide (k' = k) then o' else (k', v') :: obj_delete k o'
  end.

(** The names every plain object inherits from [Object.prototype]: the
    methods of the standard and of its Annex B, and the accessor
    [__proto__]. *)
Definition Object_prototype : list string :=
  [ "constructor"; "hasOwnProperty"; "isPrototypeOf"; "propertyIsEnumerable";
    "toLocaleString"; "toString"; "valueOf";
    "__defineGetter__"; "__defineSetter__";
    "__lookupGetter__"; "__lookupSetter__"; "__proto__" ].

(** What reading a property gives: the value of an own property; for a
    name of [Object.prototype] that is not an own property, the inherited
    method (or, for [__proto__], the prototype), an object that is truthy
    and has none of the fields of an entry; or [undefined]. *)
Inductive property (V : Type) : Type :=
  | Own (v : V)
  | Inherited
  | Undefined.
Arguments Own {V} v.
Arguments Inherited {V}.
Arguments Undefined {V}.

(** [o[k]] *)
Definition obj_read {V} (k : string) (o : obj V) : property V :=
  match obj_get k o with
  | Some v => Own v
  | None =>
      if bool_decide (k ∈ Object_prototype) then Inherited else Undefined
  end.

(** *** Strings *)

(** [s.split(sep)] for a one-character separator: never empty. *)
Fixpoint split (sep : ascii) (s : string) : list string :=
  match s with
  | EmptyString => [EmptyString]
  | String c s' =>
      if Ascii.eqb c sep then EmptyString :: split sep s'
      else match split sep s' with
           | x :: xs => String c x :: xs
           | [] => [String c EmptyString]
           end
  end.

(** [x || d] for a possibly undefined string [x]: the empty string is falsy. *)
Definition or_else (x : option string) (d : string) : string :=
  match x with
  | Some EmptyString | None => d
  | Some s => s
  end.

(** Does the character [c] occur in [s]? *)
Fixpoint has_char (c : ascii) (s : string) : bool :=
  match s with
  | EmptyString => false
  | String c' s' => Ascii.eqb c' c || has_char c s'
  end.

Fixpoint ends_with_slash (s : string) : bool :=
  match s with
  | EmptyString => false
  | String c EmptyString => Ascii.eqb c "/"
  | String _ s' => ends_with_slash s'
  end.

(** *** The data of the class *)

Record CacheEntry : Type := mkCacheEntry {
  uri : string;
  timestamp : Z;
  size : Z;
}.

Record CacheIndex : Type := mkCacheIndex {
  entries : obj CacheEntry;
  totalSize : number;
}.

Definition emptyIndex : CacheIndex := {| entries := []; totalSize := 0 |}.

Definition MAX_CACHE_SIZE : Z := 100 * 1024 * 1024.
Definition MAX_CACHE_AGE : Z := 7 * 24 * 60 * 60 * 1000.

(** [MAX_CACHE_SIZE * 0.8]: the double nearest to 0.8 times 104857600 rounds
    to the integer 83886080 exactly. *)
Definition EVICTION_TARGET : Z := 83886080.

(** *** The environment: [expo-file-system], the clock and [JSON]

    None of these is code of the repository. Files carry a byte length and
    a text; directories are not tracked, a directory being the set of the
    paths below it. A call of the file-system API is recorded in [calls];
    it rejects when the next element of [faults] is [true] (an I/O failure
    that leaves the files as they are) and otherwise acts on [files].
    [Date.now()] reads [clock] at position [ticks]. *)
Record file : Type := mkFile { fsize : Z; ftext : string }.

Inductive fs_call : Type :=
  | MakeDirectory (dir : string)
  | GetInfo (path : string)
  | GetInfoUndefined                   (* [getInfoAsync(undefined)] *)
  | ReadAsString (path : string)
  | Copy (from to : string)
  | WriteAsString (path : string) (text : string)
  | Delete (path : string).

Record FileInfo : Type := mkFileInfo { exists_ : bool; size_ : option Z }.

Record Env : Type := mkEnv {
  cacheDirectory : option string;       (* [FileSystem.cacheDirectory] *)
  documentDirectory : option string;    (* [FileSystem.documentDirectory] *)
  JSON_stringify : CacheIndex -> string;
  JSON_parse : string -> option CacheIndex;   (* [None]: throws SyntaxError *)
}.

(** The instance of the class ([index], [initialized]) and its environment. *)
Record state : Type := mkState {
  index : CacheIndex;
  initialized : bool;
  files : gmap string file;
  faults : list bool;
  clock : nat -> Z;
  ticks : nat;
  calls : list fs_call;
}.

(** [new ImageCache()] in a given environment. *)
Definition fresh (fs : gmap string file) (fl : list bool) (clk : nat -> Z)
  : state :=
  {| index := emptyIndex; initialized := false; files := fs; faults := fl;
     clock := clk; ticks := 0; calls := [] |}.

(** *** Asynchronous methods: state passing with exceptions *)

Definition M (A : Type) : Type := state -> outcome A * state.

#[global] Instance M_ret : MRet M := fun A a s => (Returns a, s).

#[global] Instance M_bind : MBind M := fun A B f m s =>
  match m s with
  | (Returns a, s') => f a s'
  | (Throws e, s') => (Throws e, s')
  end.

Definition throw {A} (e : js_error) : M A := fun s => (Throws e, s).

(** [try { body } catch (error) { handler }] *)
Definition try_catch {A} (body : M A) (handler : js_error -> M A) : M A :=
  fun s =>
    match body s with
    | (Returns a, s') => (Returns a, s')
    | (Throws e, s') => handler e s'
    end.

Definition get_index : M CacheIndex := fun s => (Returns (index s), s).

Definition set_index (i : CacheIndex) : M unit := fun s =>
  (Returns tt,
   {| index := i; initialized := initialized s; files := files s;
      faults := faults s; clock := clock s; ticks := ticks s;
      calls := calls s |}).

Definition get_initialized : M bool := fun s => (Returns (initialized s), s).

Definition set_initialized (b : bool) : M unit := fun s =>
  (Returns tt,
   {| index := index s; initialized := b; files := files s;
      faults := faults s; clock := clock s; ticks := ticks s;
      calls := calls s |}).

(** [this.index.entries[key] = entry] *)
Definition set_entry (key : string) (entry : CacheEntry) : M unit :=
  idx ← get_index;
  set_index {| entries := obj_set key entry (entries idx);
               totalSize := totalSize idx |}.

(** [delete this.index.entries[key]] *)
Definition delete_entry (key : string) : M unit :=
  idx ← get_index;
  set_index {| entries := obj_delete key (entries idx);
               totalSize := totalSize idx |}.

(** [this.index.totalSize += n] *)
Definition add_totalSize (n : number) : M unit :=
  idx ← get_index;
  set_index {| entries := entries idx; totalSize := totalSize idx + n |}.

(** [this.index.totalSize -= n] *)
Definition sub_totalSize (n : number) : M unit :=
  idx ← get_index;
  set_index {| entries := entries idx; totalSize := totalSize idx - n |}.

Definition Date_now : M Z := fun s =>
  (Returns (clock s (ticks s)),
   {| index := index s; initialized := initialized s; files := files s;
      faults := faults s; clock := clock s; ticks := S (ticks s);
      calls := calls s |}).

(** One awaited call of the file-system API. *)
Definition fs_await {A} (c : fs_call) (name : string)
    (act : gmap string file -> outcome A * gmap string file) : M A :=
  fun s =>
    let after fs :=
      {| index := index s; initialized := initialized s; files := fs;
         faults := tail (faults s); clock := clock s; ticks := ticks s;
         calls := calls s ++ [c] |} in
    match faults s with
    | true :: _ => (Throws (FsError name), after (files s))
    | _ => let '(r, fs) := act (files s) in (r, after fs)
    end.

Module FileSystem.

(** [makeDirectoryAsync(dir, { intermediates: true })] *)
Definition makeDirectoryAsync (dir : string) : M unit :=
  fs_await (MakeDirectory dir) "makeDirectoryAsync"
    (fun fs => (Returns tt, fs)).

Definition getInfoAsync (path : string) : M FileInfo :=
  fs_await (GetInfo path) "getInfoAsync"
    (fun fs =>
       match fs !! path with
       | Some f => (Returns {| exists_ := true; size_ := Some (fsize f) |}, fs)
       | None => (Returns {| exists_ := false; size_ := None |}, fs)
       end).

(** [getInfoAsync(undefined)]: the call is made all the same; when the
    file system answers, no file is found under a uri that is none. *)
Definition getInfoAsync_undefined : M FileInfo :=
  fs_await GetInfoUndefined "getInfoAsync"
    (fun fs => (Returns {| exists_ := false; size_ := None |}, fs)).

Definition readAsStringAsync (path : string) : M string :=
  fs_await (ReadAsString path) "readAsStringAsync"
    (fun fs =>
       match fs !! path with
       | Some f => (Returns (ftext f), fs)
       | None => (Throws (FsError "readAsStringAsync"), fs)
       end).

Definition copyAsync (from to : string) : M unit :=
  fs_await (Copy from to) "copyAsync"
    (fun fs =>
       match fs !! from with
       | Some f => (Returns tt, <[to := f]> fs)
       | None => (Throws (FsError "copyAsync"), fs)
       end).

Definition writeAsStringAsync (path text : string) : M unit :=
  fs_await (WriteAsString path text) "writeAsStringAsync"
    (fun fs =>
       (Returns tt,
        <[path := {| fsize := Z.of_nat (String.length text);
                     ftext := text |}]> fs)).

(** Is [path] the file [target] or a file of the directory [target]? *)
Definition within (target path : string) : bool :=
  String.eqb path target
  || String.prefix (if ends_with_slash target then target
                    else target +:+ "/") path.

(** The files left once [target] and all that is in it are gone. *)
Definition without (target : string) (fs : gmap string file)
  : gmap string file :=
  filter (fun pf => within target pf.1 = false) fs.

(** [deleteAsync(target, { idempotent: true })]: a missing target is not an
    error; a directory goes with all that is in it. *)
Definition deleteAsync (target : string) : M unit :=
  fs_await (Delete target) "deleteAsync"
    (fun fs => (Returns tt, without target fs)).

End FileSystem.

Section WithEnv.

Context (env : Env).

Definition CACHE_DIR : string := default "" (cacheDirectory env) +:+ "aidit/".
Definition EDITS_DIR : string :=
  default "" (documentDirectory env) +:+ "aidit/edits/".

Definition indexPath : string := CACHE_DIR +:+ "index.json".

Definition saveIndex : M unit :=
  idx ← get_index;
  FileSystem.writeAsStringAsync indexPath (JSON_stringify env idx).

(** One turn of the loop of [evictIfNeeded] and [cleanup]. *)
Definition remove_entry (key : string) (entry : CacheEntry) : M unit :=
  FileSystem.deleteAsync (uri entry) ;;
  sub_totalSize (size entry) ;;
  delete_entry key.

(** [entries.sort(([, a], [, b]) => a.timestamp - b.timestamp)]:
    [Array.prototype.sort] is stable, so the outcome is the one of a stable
    insertion sort. *)
Fixpoint insert_by_timestamp (x : string * CacheEntry)
    (l : list (string * CacheEntry)) : list (string * CacheEntry) :=
  match l with
  | [] => [x]
  | y :: l' =>
      if timestamp x.2 - timestamp y.2 <=? 0 then x :: y :: l'
      else y :: insert_by_timestamp x l'
  end.

Definition sort_by_timestamp (l : list (string * CacheEntry))
  : list (string * CacheEntry) :=
  foldr insert_by_timestamp [] l.

(** [for (const [key, entry] of entries) { if (...) break; ... }] *)
Fixpoint evict_loop (l : list (string * CacheEntry)) : M unit :=
  match l with
  | [] => mret tt
  | (key, entry) :: rest =>
      idx ← get_index;
      if (totalSize idx <=? EVICTION_TARGET)%num then mret tt
      else remove_entry key entry ;; evict_loop rest
  end.

Definition evictIfNeeded : M unit :=
  idx ← get_index;
  if (totalSize idx <=? MAX_CACHE_SIZE)%num then mret tt
  else
    evict_loop (sort_by_timestamp (entries idx)) ;;
    saveIndex.

Fixpoint cleanup_loop (now : Z) (l : list (string * CacheEntry)) : M unit :=
  match l with
  | [] => mret tt
  | (key, entry) :: rest =>
      (if MAX_CACHE_AGE <? now - timestamp entry
       then remove_entry key entry
       else mret tt) ;;
      cleanup_loop now rest
  end.

Definition cleanup : M unit :=
  now ← Date_now;
  idx ← get_index;
  cleanup_loop now (entries idx) ;;
  saveIndex.

Definition initialize : M unit :=
  done_ ← get_initialized;
  if (done_ : bool) then mret tt
  else
    try_catch
      (FileSystem.makeDirectoryAsync CACHE_DIR ;;
       FileSystem.makeDirectoryAsync EDITS_DIR ;;
       indexInfo ← FileSystem.getInfoAsync indexPath;
       (if exists_ indexInfo
        then
          indexData ← FileSystem.readAsStringAsync indexPath;
          match JSON_parse env indexData with
          | Some idx => set_index idx
          | None => throw SyntaxError
          end
        else mret tt) ;;
       set_initialized true ;;
       cleanup)
      (fun error =>
         set_index emptyIndex ;;
         set_initialized true).

(** The key [generateKey] builds when [Date.now()] reads [now]. *)
Definition key_for (sourceUri : string) (operation : option string) (now : Z)
  : string :=
  let hash :=
    or_else (last (split "/" sourceUri) ≫= fun seg => head (split "." seg))
            "img" in
  let suffix :=
    match operation with
    | None | Some EmptyString => ""
    | Some op => "_" +:+ op
    end in
  hash +:+ suffix +:+ "_" +:+ pretty now.

Definition generateKey (sourceUri : string) (operation : option string)
  : M string :=
  now ← Date_now;
  mret (key_for sourceUri operation now).

Definition cacheImage (sourceUri : string) (operation : option string)
  : M string :=
  initialize ;;
  key ← generateKey sourceUri operation;
  let extension := or_else (last (split "." sourceUri)) "jpg" in
  let destUri := CACHE_DIR +:+ key +:+ "." +:+ extension in
  try_catch
    (FileSystem.copyAsync sourceUri destUri ;;
     info ← FileSystem.getInfoAsync destUri;
     let size :=
       match exists_ info, size_ info with
       | true, Some n => n
       | _, _ => 0
       end in
     now ← Date_now;
     set_entry key {| uri := destUri; timestamp := now; size := size |} ;;
     add_totalSize size ;;
     saveIndex ;;
     evictIfNeeded ;;
     mret destUri)
    (fun error => throw (Error "Failed to cache image" error)).

Definition saveEdit (sourceUri : string) (name : option string) : M string :=
  initialize ;;
  timestamp ← Date_now;
  let editName := or_else name ("edit_" +:+ pretty timestamp) in
  let extension := or_else (last (split "." sourceUri)) "jpg" in
  let destUri := EDITS_DIR +:+ editName +:+ "." +:+ extension in
  try_catch
    (FileSystem.copyAsync sourceUri destUri ;;
     mret destUri)
    (fun error => throw (Error "Failed to save edit" error)).

(** [entries[key]] is read from a plain object, so a [key] that names a
    method of [Object.prototype] and no entry passes [if (!entry)]. Of such
    an [entry] both [entry.uri] and [entry.size] are [undefined]: the file
    system is asked about [undefined], and [totalSize -= undefined] leaves
    [NaN]; [delete] of a property that is not an own one does nothing.
    (Were a file reported to exist there, the time stamp would land on the
    inherited object, outside the index, and [entry.uri], [undefined],
    would be returned.) *)
Definition getCached (key : string) : M (option string) :=
  initialize ;;
  idx ← get_index;
  match obj_read key (entries idx) with
  | Undefined => mret None
  | Own entry =>
      info ← FileSystem.getInfoAsync (uri entry);
      if negb (exists_ info)
      then
        delete_entry key ;;
        sub_totalSize (size entry) ;;
        saveIndex ;;
        mret None
      else
        now ← Date_now;
        set_entry key {| uri := uri entry; timestamp := now;
                         size := size entry |} ;;
        saveIndex ;;
        mret (Some (uri entry))
  | Inherited =>
      info ← FileSystem.getInfoAsync_undefined;
      if negb (exists_ info)
      then
        delete_entry key ;;
        sub_totalSize NaN ;;
        saveIndex ;;
        mret None
      else
        now ← Date_now;
        saveIndex ;;
        mret None
  end.

(** [Object.keys(entries).find((k) => entries[k].uri === uri)]; every key
    listed has an entry. *)
Definition find_key (target : string) (o : obj CacheEntry) : option string :=
  List.find
    (fun k => match obj_get k o with
              | Some e => bool_decide (uri e = target)
              | None => false
              end)
    (obj_keys o).

Definition delete (target : string) : M unit :=
  try_catch
    (FileSystem.deleteAsync target ;;
     idx ← get_index;
     match find_key target (entries idx) with
     | None | Some EmptyString => mret tt      (* [if (key)] *)
     | Some key =>
         sub_totalSize (default 0 (size <$> obj_get key (entries idx))) ;;
         delete_entry key ;;
         saveIndex
     end)
    (fun error => mret tt).

Definition clearCache : M unit :=
  try_catch
    (FileSystem.deleteAsync CACHE_DIR ;;
     FileSystem.makeDirectoryAsync CACHE_DIR ;;
     set_index emptyIndex ;;
     saveIndex)
    (fun error => mret tt).

Record Stats : Type := mkStats { entryCount : Z; totalSize_ : number }.

Definition getStats (s : state) : Stats :=
  {| entryCount := Z.of_nat (length (obj_keys (entries (index s))));
     totalSize_ := totalSize (index s) |}.

End WithEnv.

(** *** Notions of the specification *)

(** [sum(entry.sizeBytes for entry in entries)] *)
Definition sum_sizes (o : obj CacheEntry) : Z :=
  foldr (fun kv acc => size kv.2 + acc) 0 o.

(** Sum consistency: [totalSize] is the sum of the sizes of the entries. *)
Definition consistent (idx : CacheIndex) : Prop :=
  totalSize idx = Num (sum_sizes (entries idx)).

(** The oldest entry by timestamp, the first encountered among equals. *)
Fixpoint oldest (o : obj CacheEntry) : option (string * CacheEntry) :=
  match o with
  | [] => None
  | x :: o' =>
      match oldest o' with
      | None => Some x
      | Some m => if timestamp x.2 <=? timestamp m.2 then Some x else Some m
      end
  end.

(** The eviction the specification describes: as long as the total is above
    the target (and an entry is left), remove the single oldest entry.
    [evicts o t out o' t'] relates the entries [o] and total [t] before to
    the evicted entries [out], in order, and the entries and total after. *)
Inductive evicts :
  obj CacheEntry -> Z -> list (string * CacheEntry) ->
  obj CacheEntry -> Z -> Prop :=
  | evicts_stop o t :
      t <= EVICTION_TARGET \/ o = [] ->
      evicts o t [] o t
  | evicts_step o t key entry out o' t' :
      EVICTION_TARGET < t ->
      oldest o = Some (key, entry) ->
      evicts (obj_delete key o) (t - size entry) out o' t' ->
      evicts o t ((key, entry) :: out) o' t'.

(** The files left by deleting the files of the evicted entries in turn. *)
Definition delete_files (out : list (string * CacheEntry))
    (fs : gmap string file) : gmap string file :=
  foldl (fun fs kv => FileSystem.without (uri kv.2) fs) fs out.

(** An index as the class builds it: no key twice, no file under two
    entries, and no entry standing for the index file itself (or for a
    directory holding it). *)
Definition well_formed (index_path : string) (idx : CacheIndex) : Prop :=
  obj_wf (entries idx) /\
  NoDup ((fun kv => uri kv.2) <$> entries idx) /\
  Forall (fun kv => FileSystem.within (uri kv.2) index_path = false)
         (entries idx).

(** *** The invariant of the store, and the calls a client can make *)

(** An entry as [cacheImage] records it: its file is named after its key,
    in the cache directory, with an extension (which holds no dot), and its
    key holds the underscore that precedes the time stamp. *)
Definition managed (cache_dir : string) (kv : string * CacheEntry) : Prop :=
  has_char "_" kv.1 = true /\
  exists ext, has_char "." ext = false /\
              uri kv.2 = cache_dir +:+ kv.1 +:+ "." +:+ ext.

(** The invariant of the index: its shape (no key twice, every entry
    managed) and, when [summed] is set, sum consistency. The shape holds
    whatever the keys generated; sum consistency needs them unused. *)
Definition store_inv (summed : bool) (cache_dir : string) (idx : CacheIndex)
  : Prop :=
  (summed = true -> consistent idx) /\
  obj_wf (entries idx) /\
  Forall (managed cache_dir) (entries idx).

(** An initialized store whose index satisfies the invariant. *)
Definition ok (summed : bool) (env : Env) (s : state) : Prop :=
  initialized s = true /\ store_inv summed (CACHE_DIR env) (index s).

(** The entries a loop over a snapshot of the index has still to visit are
    entries of the index. *)
Definition snapshot_of (l : list (string * CacheEntry)) (s : state) : Prop :=
  NoDup l.*1 /\
  forall k e, (k, e) ∈ l -> obj_get k (entries (index s)) = Some e.

Inductive call : Type :=
  | Initialize
  | CacheImage (sourceUri : string) (operation : option string)
  | SaveEdit (sourceUri : string) (name : option string)
  | GetCached (key : string)
  | DeleteUri (target : string)
  | ClearCache.

(** The state a call leaves, whether it returns or throws. *)
Definition perform (env : Env) (c : call) (s : state) : state :=
  match c with
  | Initialize => (initialize env s).2
  | CacheImage sourceUri operation => (cacheImage env sourceUri operation s).2
  | SaveEdit sourceUri name => (saveEdit env sourceUri name s).2
  | GetCached key => (getCached env key s).2
  | DeleteUri target => (delete env target s).2
  | ClearCache => (clearCache env s).2
  end.

Definition perform_all (env : Env) (cs : list call) (s : state) : state :=
  foldl (fun s c => perform env c s) s cs.

(** The key a call of [cacheImage] is about to generate is not in use. *)
Definition fresh_key (c : call) (s : state) : Prop :=
  match c with
  | CacheImage sourceUri operation =>
      obj_get (key_for sourceUri operation (clock s (ticks s)))
              (entries (index s)) = None
  | _ => True
  end.

Fixpoint collision_free (env : Env) (cs : list call) (s : state) : Prop :=
  match cs with
  | [] => True
  | c :: cs' => fresh_key c s /\ collision_free env cs' (perform env c s)
  end.

(** The key a call of [getCached] looks up is a key of the index or no
    property at all: not a name the index inherits from
    [Object.prototype]. *)
Definition plain_key (c : call) (s : state) : Prop :=
  match c with
  | GetCached key => obj_read key (entries (index s)) <> Inherited
  | _ => True
  end.

Fixpoint plain_lookups (env : Env) (cs : list call) (s : state) : Prop :=
  match cs with
  | [] => True
  | c :: cs' => plain_key c s /\ plain_lookups env cs' (perform env c s)
  end.

(** The sizes are byte counts with which JavaScript computes exactly: no
    size is negative, and the sizes of all entries together with that of
    any one file of the device stay within 2^53, so that [totalSize], which
    only ever holds the sum of sizes of entries, is computed without
    rounding. *)
Definition exact (s : state) : Prop :=
  Forall (fun kv => 0 <= size kv.2) (entries (index s)) /\
  map_Forall
    (fun _ f => 0 <= fsize f /\
                sum_sizes (entries (index s)) + fsize f <= 2 ^ 53)
    (files s).

Fixpoint exact_run (env : Env) (cs : list call) (s : state) : Prop :=
  exact s /\
  match cs with
  | [] => True
  | c :: cs' => exact_run env cs' (perform env c s)
  end.

(** *** Reasoning about methods

    [wp m Q E s]: run from [s], the method [m] either returns a value and a
    state that satisfy [Q], or throws and leaves a state that satisfies
    [E]. *)
Definition wp {A} (m : M A) (Q : A -> state -> Prop) (E : state -> Prop)
    (s : state) : Prop :=
  match m s with
  | (Returns a, s') => Q a s'
  | (Throws _, s') => E s'
  end.

(** [s'] is [s] up to the environment: the fields of the class agree. *)
Definition same_object (s s' : state) : Prop :=
  index s' = index s /\ initialized s' = initialized s.

(** *** A concrete environment and the scenarios of the specification *)

Definition MiB : Z := 1024 * 1024.

(** [JSON] is kept abstract by the model; this instance writes a fixed text
    and reads nothing back. *)
Definition env0 : Env :=
  {| cacheDirectory := Some "file:///cache/";
     documentDirectory := Some "file:///doc/";
     JSON_stringify := fun _ => "{}";
     JSON_parse := fun _ => None |}.

Definition entry40 (name : string) (t : Z) : string * CacheEntry :=
  (name, {| uri := "file:///cache/aidit/" +:+ name +:+ ".jpg";
            timestamp := t; size := 40 * MiB |}).

(** Scenario C: three cached images of 40 MiB each, about to be evicted. *)
Definition index120 : CacheIndex :=
  {| entries := [entry40 "a_1" 1001; entry40 "b_2" 1002; entry40 "c_3" 1003];
     totalSize := 120 * MiB |}.

Definition files120 : gmap string file :=
  list_to_map
    ((fun kv => (uri kv.2, {| fsize := size kv.2; ftext := "" |}))
       <$> entries index120).

Definition state120 : state :=
  {| index := index120; initialized := true; files := files120;
     faults := []; clock := fun n => 2000 + Z.of_nat n; ticks := 0;
     calls := [] |}.

(** The same store after the file of ["b_2"] was deleted behind its back
    (Scenario D). *)
Definition state120_stale : state :=
  {| index := index120; initialized := true;
     files := base.delete "file:///cache/aidit/b_2.jpg" files120;
     faults := []; clock := fun n => 2000 + Z.of_nat n; ticks := 0;
     calls := [] |}.

(** An environment whose [JSON.parse] accepts one text, that of
    [index120]. *)
Definition env1 : Env :=
  {| cacheDirectory := Some "file:///cache/";
     documentDirectory := Some "file:///doc/";
     JSON_stringify := fun _ => "{}";
     JSON_parse := fun text =>
       if decide (text = "index120") then Some index120 else None |}.

(** A new instance, started with a given text in the index file. *)
Definition started_with (text : string) : state :=
  fresh (<["file:///cache/aidit/index.json" :=
             {| fsize := Z.of_nat (String.length text); ftext := text |}]>
           files120)
        [] (fun n => 2000 + Z.of_nat n).

(** A new instance started a week later, to the millisecond, with the text
    of [index120] in the index file: the entry ["a_1"] is one millisecond
    over the age limit, ["b_2"] exactly at it. *)
Definition started_later : state :=
  fresh (<["file:///cache/aidit/index.json" :=
             {| fsize := 8; ftext := "index120" |}]>
           files120)
        [] (fun _ => MAX_CACHE_AGE + 1002).

(** A new instance with one 5-byte photo on the device and a clock that
    does not advance: every [Date.now()] reads the same millisecond. *)
Definition same_millisecond : state :=
  fresh {[ "file:///photos/a.jpg" := {| fsize := 5; ftext := "photo" |} ]}
        [] (fun _ => 1700000000000).

(** Two calls in a row for the same photo and operation. *)
Definition cache_twice : M string :=
  cacheImage env0 "file:///photos/a.jpg" (Some "enhance") ;;
  cacheImage env0 "file:///photos/a.jpg" (Some "enhance").

(** The same with a photo of 90 MiB. *)
Definition same_millisecond90 : state :=
  fresh {[ "file:///photos/a.jpg" := {| fsize := 90 * MiB; ftext := "" |} ]}
        [] (fun _ => 1700000000000).

(** The store as the second of these two calls hands it to
    [evictIfNeeded]: one entry of 90 MiB, counted twice. *)
Definition counted_twice : state :=
  {| index :=
       {| entries :=
            [("a_enhance_1700000000000",
              {| uri := "file:///cache/aidit/a_enhance_1700000000000.jpg";
                 timestamp := 1700000000000; size := 90 * MiB |})];
          totalSize := 180 * MiB |};
     initialized := true;
     files :=
       {[ "file:///photos/a.jpg" := {| fsize := 90 * MiB; ftext := "" |};
          "file:///cache/aidit/a_enhance_1700000000000.jpg" :=
            {| fsize := 90 * MiB; ftext := "" |};
          "file:///cache/aidit/index.json" := {| fsize := 2; ftext := "{}" |} ]};
     faults := []; clock := fun _ => 1700000000000; ticks := 5;
     calls := [] |}.

(** *** Further notions about the cache *)

(** The store of Scenario C a week later, to the millisecond: the entry
    ["a_1"] is one millisecond over the age limit, ["b_2"] exactly at
    it. *)
Definition state120_later : state :=
  {| index := index120; initialized := true; files := files120;
     faults := []; clock := fun _ => MAX_CACHE_AGE + 1002; ticks := 0;
     calls := [] |}.

(** Has the entry expired at time [now]? The test of [cleanup]. *)
Definition expired (now : Z) (kv : string * CacheEntry) : Prop :=
  MAX_CACHE_AGE < now - timestamp kv.2.

#[global] Instance expired_dec now kv : Decision (expired now kv) :=
  Z_lt_dec _ _.

(** A store with two cached images of 40 MiB, and on the device a photo
    of 10 MiB and a panorama of 110 MiB, larger than the whole cache. *)
Definition index80 : CacheIndex :=
  {| entries := [entry40 "a_1" 1001; entry40 "b_2" 1002];
     totalSize := 80 * MiB |}.

Definition files80 : gmap string file :=
  <["file:///photos/p.jpg" := {| fsize := 10 * MiB; ftext := "" |}]>
    (<["file:///photos/pano.jpg" := {| fsize := 110 * MiB; ftext := "" |}]>
       (list_to_map
          ((fun kv => (uri kv.2, {| fsize := size kv.2; ftext := "" |}))
             <$> entries index80))).

Definition state80 : state :=
  {| index := index80; initialized := true; files := files80;
     faults := []; clock := fun n => 2000 + Z.of_nat n; ticks := 0;
     calls := [] |}.

(** The same store when the next call of the file system is rejected. *)
Definition state80_failing : state :=
  {| index := index80; initialized := true; files := files80;
     faults := [true]; clock := fun n => 2000 + Z.of_nat n; ticks := 0;
     calls := [] |}.

(** The same store when the third call of the file system is rejected. *)
Definition state80_unsaved : state :=
  {| index := index80; initialized := true; files := files80;
     faults := [false; false; true];
     clock := fun n => 2000 + Z.of_nat n; ticks := 0; calls := [] |}.

(** A session of calls on that store. *)
Definition calls80 : list call :=
  [ CacheImage "file:///photos/p.jpg" (Some "enhance");
    GetCached "a_1";
    SaveEdit "file:///photos/p.jpg" None;
    DeleteUri "file:///cache/aidit/b_2.jpg";
    CacheImage "file:///photos/pano.jpg" None;
    ClearCache ].

(** The uri [cacheImage] copies the source to, for a generated key. *)
Definition cached_uri (env : Env) (sourceUri key : string) : string :=
  CACHE_DIR env +:+ key +:+ "." +:+ or_else (last (split "." sourceUri)) "jpg".

(** The entry [cacheImage] records for the copy [f] made at [destUri]. *)
Definition cached_entry (destUri : string) (now : Z) (f : file) : CacheEntry :=
  {| uri := destUri; timestamp := now; size := fsize f |}.

(** The index once [cacheImage] has recorded an entry. *)
Definition inserted (key : string) (entry : CacheEntry) (idx : CacheIndex)
  : CacheIndex :=
  {| entries := obj_set key entry (entries idx);
     totalSize := totalSize idx + size entry |}.

(** The file [saveIndex] writes for an index. *)
Definition index_file (env : Env) (idx : CacheIndex) : file :=
  {| fsize := Z.of_nat (String.length (JSON_stringify env idx));
     ftext := JSON_stringify env idx |}.

End ImageCache.

(** * Properties of the edit-history store *)

Section EditorStoreProperties.

Import EditorStore.

Lemma js_index_lookup {A} (l : list A) (i : Z) :
  0 <= i -> js_index l i = l !! Z.to_nat i.
Proof. intros Hi. unfold js_index. destruct (Z.ltb_spec i 0); [lia|done]. Qed.

Lemma js_index_is_Some {A} (l : list A) (i : Z) :
  0 <= i < Z.of_nat (length l) -> is_Some (js_index l i).
Proof.
  intros Hi. rewrite js_index_lookup by lia.
  apply lookup_lt_is_Some. lia.
Qed.

Lemma js_index_None {A} (l : list A) (i : Z) :
  Z.of_nat (length l) <= i -> js_index l i = None.
Proof.
  intros Hi. unfold js_index. destruct (Z.ltb_spec i 0); [done|].
  apply lookup_ge_None. lia.
Qed.

Lemma js_slice0_take {A} (l : list A) (e : Z) :
  0 <= e -> js_slice0 l e = take (Z.to_nat e) l.
Proof. intros He. unfold js_slice0. destruct (Z.ltb_spec e 0); [lia|done]. Qed.

(** *** The invariant of the store, action by action *)

Lemma initialState_ok : state_ok initialState.
Proof. intros cs Hcs. discriminate Hcs. Qed.

Lemma startSession_ok u t1 t2 t3 t4 st :
  exists st', startSession u t1 t2 t3 t4 st = Returns st' /\ state_ok st'.
Proof.
  eexists; split; [reflexivity|].
  intros cs [= <-]. split; simpl; [lia|reflexivity].
Qed.

Lemma applyEdit_ok u t t1 t2 st :
  state_ok st ->
  exists st', applyEdit u t t1 t2 st = Returns st' /\ state_ok st'.
Proof.
  intros Hst. unfold applyEdit.
  destruct (currentSession st) as [cs|] eqn:Hcs; [|by eauto].
  eexists; split; [reflexivity|].
  intros cs' [= <-]. unfold session_ok, activeState; simpl.
  rewrite length_app; simpl. split; [lia|].
  rewrite js_index_lookup by lia.
  rewrite list_lookup_middle by lia. reflexivity.
Qed.

Lemma moveTo_ok i now cs st :
  0 <= i < Z.of_nat (length (history cs)) ->
  exists st', moveTo i now cs st = Returns st' /\ state_ok st'.
Proof.
  intros Hi. unfold moveTo.
  destruct (js_index_is_Some (history cs) i Hi) as [h Hh]. rewrite Hh.
  eexists; split; [reflexivity|].
  intros cs' [= <-]. unfold session_ok, activeState; simpl.
  split; [done|]. by rewrite Hh.
Qed.

Lemma undo_ok now st :
  state_ok st -> exists st', undo now st = Returns st' /\ state_ok st'.
Proof.
  intros Hst. unfold undo.
  destruct (currentSession st) as [cs|] eqn:Hcs; [|by eauto].
  destruct (Hst cs Hcs) as [Hb _].
  destruct (Z.leb_spec (historyIndex cs) 0); [by eauto|].
  apply moveTo_ok. lia.
Qed.

Lemma redo_ok now st :
  state_ok st -> exists st', redo now st = Returns st' /\ state_ok st'.
Proof.
  intros Hst. unfold redo.
  destruct (currentSession st) as [cs|] eqn:Hcs; [|by eauto].
  destruct (Hst cs Hcs) as [Hb _].
  destruct (Z.geb_spec (historyIndex cs) (Z.of_nat (length (history cs)) - 1));
    [by eauto|].
  apply moveTo_ok. lia.
Qed.

Lemma dispatch_ok a st :
  state_ok st -> exists st', dispatch a st = Returns st' /\ state_ok st'.
Proof.
  intros Hst. destruct a; simpl;
    auto using startSession_ok, applyEdit_ok, undo_ok, redo_ok;
    (eexists; split; [reflexivity|]); try exact Hst.
  intros cs Hcs; discriminate Hcs.
Qed.

Lemma run_ok acts : forall st,
  state_ok st -> exists st', run acts st = Returns st' /\ state_ok st'.
Proof.
  induction acts as [|a acts IH]; intros st Hst; simpl; [by eauto|].
  destruct (dispatch_ok a st Hst) as (st1 & -> & Hst1). by apply IH.
Qed.

(** C2. Whatever actions are dispatched on the store from its initial
    state, and however many of them have been carried out so far (the first
    [n]), none of them throws and the session they leave, if any, has its
    cursor inside its history: [0 <= historyIndex < history.length]. *)
Theorem cursor_stays_inside_history (acts : list action) (n : nat) :
  exists st,
    run (take n acts) initialState = Returns st /\
    forall cs, currentSession st = Some cs ->
      0 <= historyIndex cs < Z.of_nat (length (history cs)).
Proof.
  destruct (run_ok (take n acts) initialState initialState_ok)
    as (st & Hrun & Hok).
  exists st. split; [exact Hrun|].
  intros cs Hcs. exact (proj1 (Hok cs Hcs)).
Qed.

(** C5. Whatever actions are dispatched on the store from its initial
    state, after each of them the stored [currentUri] of the session is the
    [uri] of the history entry under the cursor,
    [history[historyIndex].uri]. *)
Theorem currentUri_is_uri_under_cursor (acts : list action) (n : nat) :
  exists st,
    run (take n acts) initialState = Returns st /\
    forall cs, currentSession st = Some cs ->
      exists h, js_index (history cs) (historyIndex cs) = Some h /\
                currentUri cs = uri h.
Proof.
  destruct (run_ok (take n acts) initialState initialState_ok)
    as (st & Hrun & Hok).
  exists st. split; [exact Hrun|].
  intros cs Hcs. destruct (Hok cs Hcs) as [_ Hcur].
  unfold activeState in Hcur.
  destruct (js_index (history cs) (historyIndex cs)) as [h|]; [|done].
  exists h. split; [done|]. by injection Hcur.
Qed.

(** C3. In a session whose cursor [c] is not at the last history entry,
    [applyEdit] keeps the entries [0..c], puts the new state right after
    them and moves the cursor onto it: the history has [c + 2] entries, the
    cursor is [length - 1], the positions the redo states occupied hold the
    new state (position [c + 1]) or nothing (beyond), and [redo] has
    nothing left to go to. *)
Theorem applyEdit_truncates_redo_tail (st : EditorState) (cs : EditSession)
    (newUri : string) (tool_ : AITool) (tState tUpdated now : Z) :
  currentSession st = Some cs ->
  0 <= historyIndex cs < Z.of_nat (length (history cs)) - 1 ->
  let c := historyIndex cs in
  let newState := {| uri := newUri; timestamp := tState; tool := Some tool_ |} in
  exists st' cs',
    applyEdit newUri tool_ tState tUpdated st = Returns st' /\
    currentSession st' = Some cs' /\
    history cs' = take (Z.to_nat (c + 1)) (history cs) ++ [newState] /\
    Z.of_nat (length (history cs')) = c + 2 /\
    historyIndex cs' = Z.of_nat (length (history cs')) - 1 /\
    (forall i, 0 <= i <= c ->
       js_index (history cs') i = js_index (history cs) i) /\
    js_index (history cs') (c + 1) = Some newState /\
    (forall i, c + 1 < i -> js_index (history cs') i = None) /\
    canRedo st' = false /\
    redo now st' = Returns st'.
Proof.
  intros Hcs Hc c newState. unfold applyEdit. rewrite Hcs.
  rewrite js_slice0_take by lia. fold c. fold newState.
  set (kept := take (Z.to_nat (c + 1)) (history cs)).
  assert (Hkept : length kept = Z.to_nat (c + 1)).
  { unfold kept. rewrite length_take. lia. }
  assert (Hlen : Z.of_nat (length (kept ++ [newState])) = c + 2).
  { rewrite length_app; simpl. lia. }
  eexists _, _. split; [reflexivity|]. split; [reflexivity|]. simpl.
  split; [reflexivity|]. split; [exact Hlen|]. split; [reflexivity|].
  split; [|split; [|split; [|split]]].
  - intros i Hi. rewrite !js_index_lookup by lia.
    rewrite lookup_app_l by lia. unfold kept.
    apply lookup_take_lt. lia.
  - rewrite js_index_lookup by lia. by apply list_lookup_middle.
  - intros i Hi. apply js_index_None. lia.
  - unfold canRedo; simpl. apply Z.ltb_ge. lia.
  - unfold redo; simpl.
    destruct (Z.geb_spec (Z.of_nat (length (kept ++ [newState])) - 1)
                (Z.of_nat (length (kept ++ [newState])) - 1)); [done|lia].
Qed.

Lemma applyEdit_truncates_redo_tail_witness :
  run scenarioB initialState
    = Returns (set_currentSession (Some sessionB) initialState) /\
  exists st' cs',
    applyEdit "e2.jpg" smart_crop 4000 4000
      (set_currentSession (Some sessionB) initialState) = Returns st' /\
    currentSession st' = Some cs' /\
    uri <$> history cs' = ["orig.jpg"; "e2.jpg"] /\
    historyIndex cs' = 1.
Proof.
  split; [reflexivity|].
  destruct (applyEdit_truncates_redo_tail
              (set_currentSession (Some sessionB) initialState) sessionB
              "e2.jpg" smart_crop 4000 4000 5000)
    as (st' & cs' & Happ & Hcs' & Hhist & _ & Hidx & _);
    [reflexivity | simpl; lia |].
  exists st', cs'. split; [exact Happ|]. split; [exact Hcs'|].
  split; [by rewrite Hhist | by rewrite Hidx, Hhist].
Defined.

(** C10. Without an active session [applyEdit], [undo] and [redo] return
    without throwing and leave the whole store as it was, and [canUndo] and
    [canRedo] answer [false]. *)
Theorem no_session_actions_are_noops (st : EditorState)
    (newUri : string) (tool_ : AITool) (tState tUpdated now : Z) :
  currentSession st = None ->
  applyEdit newUri tool_ tState tUpdated st = Returns st /\
  undo now st = Returns st /\
  redo now st = Returns st /\
  canUndo st = false /\
  canRedo st = false.
Proof.
  intros Hcs. unfold applyEdit, undo, redo, canUndo, canRedo.
  rewrite Hcs. repeat split.
Qed.

Lemma no_session_actions_are_noops_witness :
  applyEdit "e1.jpg" auto_enhance 1 2 initialState = Returns initialState /\
  undo 3 initialState = Returns initialState /\
  redo 3 initialState = Returns initialState /\
  canUndo initialState = false /\
  canRedo initialState = false.
Proof. apply no_session_actions_are_noops. reflexivity. Defined.

End EditorStoreProperties.

(** * Properties of the image cache *)

Section ImageCacheProperties.

Import ImageCache.

Context (env : Env).

(* Keep the operations on files folded when computing with states. *)
#[local] Arguments lookup : simpl never.
#[local] Arguments insert : simpl never.
#[local] Arguments filter : simpl never.

(** *** Objects as dictionaries *)

Lemma obj_get_elem_of {V} (o : obj V) k v :
  obj_wf o -> (k, v) ∈ o -> obj_get k o = Some v.
Proof.
  unfold obj_wf, obj_keys.
  induction o as [|[k' v'] o IH]; simpl; intros Hwf Hin.
  - by apply elem_of_nil in Hin.
  - apply NoDup_cons in Hwf as [Hk' Hwf].
    apply elem_of_cons in Hin as [[= -> ->]|Hin].
    + by rewrite decide_True.
    + rewrite decide_False; [by apply IH|].
      intros ->. apply Hk'. apply list_elem_of_fmap. by exists (k, v).
Qed.

Lemma obj_get_Some_elem_of {V} (o : obj V) k v :
  obj_get k o = Some v -> (k, v) ∈ o.
Proof.
  induction o as [|[k' v'] o IH]; simpl; [done|].
  case_decide as Hk.
  - intros [= ->]. subst k'. left.
  - intros Hget. right. by apply IH.
Qed.

Lemma obj_read_own {V} (o : obj V) k v :
  obj_get k o = Some v -> obj_read k o = Own v.
Proof. unfold obj_read. by intros ->. Qed.

Lemma obj_read_Own {V} (o : obj V) k v :
  obj_read k o = Own v -> obj_get k o = Some v.
Proof.
  unfold obj_read. destruct (obj_get k o); [congruence|]. by case_bool_decide.
Qed.

Lemma obj_delete_key_elem_of {V} (o : obj V) k k' :
  k' ∈ obj_keys (obj_delete k o) -> k' ∈ obj_keys o.
Proof.
  unfold obj_keys. induction o as [|[k0 v0] o IH]; simpl; [done|].
  case_decide.
  - intros Hin. by right.
  - simpl. intros [->|Hin]%elem_of_cons; [left | right; by apply IH].
Qed.

Lemma obj_delete_wf {V} (o : obj V) k : obj_wf o -> obj_wf (obj_delete k o).
Proof.
  unfold obj_wf. induction o as [|[k' v'] o IH]; simpl; [done|].
  unfold obj_keys; simpl. intros [Hk' Hwf]%NoDup_cons.
  case_decide; [done|]. simpl. apply NoDup_cons. split; [|by apply IH].
  intros Hin. apply Hk'. by apply (obj_delete_key_elem_of o k).
Qed.

(** *** The oldest entry and the sorted snapshot *)

Lemma oldest_None o : oldest o = None -> o = [].
Proof.
  destruct o as [|x o]; simpl; [done|].
  destruct (oldest o); [case_match|]; done.
Qed.

Lemma oldest_elem_of o m : oldest o = Some m -> m ∈ o.
Proof.
  revert m. induction o as [|x o IH]; simpl; intros m; [done|].
  destruct (oldest o) as [m'|].
  - case_match; intros [= <-]; [left | right; by apply IH].
  - intros [= <-]. left.
Qed.

(** [oldest] is what its name says: nothing in front of it is as old, and
    nothing behind it is older. *)
Lemma oldest_first_minimum o m :
  oldest o = Some m ->
  exists front back,
    o = front ++ m :: back /\
    (forall y, y ∈ front -> timestamp m.2 < timestamp y.2) /\
    (forall y, y ∈ back -> timestamp m.2 <= timestamp y.2).
Proof.
  revert m. induction o as [|x o IH]; simpl; intros m; [done|].
  destruct (oldest o) as [m'|] eqn:Hm'.
  - destruct (IH m' eq_refl) as (front & back & -> & Hfront & Hback).
    destruct (Z.leb_spec (timestamp x.2) (timestamp m'.2)) as [Hle|Hlt];
      intros [= <-].
    + exists [], (front ++ m' :: back). split; [done|].
      split; [intros y Hy; by apply elem_of_nil in Hy|].
      intros y [Hy|[->|Hy]%elem_of_cons]%elem_of_app.
      * specialize (Hfront y Hy). lia.
      * done.
      * specialize (Hback y Hy). lia.
    + exists (x :: front), back. split; [done|]. split; [|done].
      intros y [->|Hy]%elem_of_cons; [done | by apply Hfront].
  - intros [= <-]. apply oldest_None in Hm' as ->.
    exists [], []. split; [done|].
    split; intros y Hy; by apply elem_of_nil in Hy.
Qed.

Lemma sort_by_timestamp_nil o : sort_by_timestamp o = [] -> o = [].
Proof.
  destruct o as [|x o]; [done|]. simpl.
  destruct (sort_by_timestamp o) as [|y l]; simpl; [done|].
  by case_match.
Qed.

(** The head of the sorted snapshot is the oldest entry, and its tail is
    the sorted snapshot of what is left without it. *)
Lemma sort_by_timestamp_oldest o key entry :
  obj_wf o -> oldest o = Some (key, entry) ->
  sort_by_timestamp o = (key, entry) :: sort_by_timestamp (obj_delete key o).
Proof.
  revert key entry.
  induction o as [|[k e] o IH]; intros key entry Hwf; [done|].
  apply NoDup_cons in Hwf as [Hk Hwf]. simpl.
  destruct (oldest o) as [[km em]|] eqn:Hm.
  - rewrite (IH km em Hwf eq_refl). simpl.
    destruct (Z.leb_spec (timestamp e) (timestamp em)) as [Hle|Hlt];
      intros [= <- <-].
    + rewrite decide_True by done.
      destruct (Z.leb_spec (timestamp e - timestamp em) 0); [|lia].
      by rewrite (IH km em Hwf eq_refl).
    + destruct (Z.leb_spec (timestamp e - timestamp em) 0); [lia|].
      rewrite decide_False; [done|].
      intros ->. apply Hk. apply list_elem_of_fmap.
      exists (km, em). split; [done|]. by apply oldest_elem_of.
  - intros [= <- <-]. rewrite decide_True by done.
    by rewrite (oldest_None o Hm).
Qed.

(** *** Sum consistency under removal *)

Lemma sum_sizes_delete o key entry :
  obj_get key o = Some entry ->
  sum_sizes (obj_delete key o) = sum_sizes o - size entry.
Proof.
  induction o as [|[k e] o IH]; simpl; [done|].
  case_decide.
  - intros [= ->]. lia.
  - intros Hget. simpl. rewrite (IH Hget). lia.
Qed.

Lemma evicts_reaches_target o t out o' t' :
  evicts o t out o' t' ->
  obj_wf o -> t = sum_sizes o ->
  t' = sum_sizes o' /\ t' <= EVICTION_TARGET.
Proof.
  induction 1 as [o t [Hle| ->]|o t key entry out o' t' Hgt Hold _ IH];
    intros Hwf Hsum.
  - done.
  - subst t. split; [done|]. by vm_compute.
  - apply IH; [by apply obj_delete_wf|].
    rewrite (sum_sizes_delete o key entry); [lia|].
    apply obj_get_elem_of; [done|]. by apply oldest_elem_of.
Qed.

(** An eviction ends at or below the target, or with no entry left. *)
Lemma evicts_ends o t out o' t' :
  evicts o t out o' t' -> t' <= EVICTION_TARGET \/ o' = [].
Proof. by induction 1. Qed.

(** *** Running the methods *)

Lemma remove_entry_ok key entry idx ini fs clk tk cl :
  remove_entry key entry (mkState idx ini fs [] clk tk cl)
  = (Returns tt,
     mkState {| entries := obj_delete key (entries idx);
                totalSize := totalSize idx - size entry |}
             ini (delete_files [(key, entry)] fs) [] clk tk
             (cl ++ [Delete (uri entry)])).
Proof. reflexivity. Qed.

Lemma saveIndex_ok idx ini fs clk tk cl :
  saveIndex env (mkState idx ini fs [] clk tk cl)
  = (Returns tt,
     mkState idx ini
       (<[indexPath env :=
            {| fsize := Z.of_nat (String.length (JSON_stringify env idx));
               ftext := JSON_stringify env idx |}]> fs)
       [] clk tk
       (cl ++ [WriteAsString (indexPath env) (JSON_stringify env idx)])).
Proof. reflexivity. Qed.

Lemma evict_loop_spec l : forall o (t : Z) ini fs clk tk cl,
  l = sort_by_timestamp o ->
  obj_wf o ->
  exists out o' (t' : Z),
    evicts o t out o' t' /\
    evict_loop l (mkState {| entries := o; totalSize := t |} ini fs [] clk tk cl)
    = (Returns tt,
       mkState {| entries := o'; totalSize := t' |} ini (delete_files out fs)
               [] clk tk (cl ++ ((fun kv => Delete (uri kv.2)) <$> out))).
Proof.
  induction l as [|[k e] l IH]; intros o t ini fs clk tk cl Hl Hwf;
    simpl in Hl, Hwf |- *.
  - symmetry in Hl. apply sort_by_timestamp_nil in Hl as ->.
    exists [], [], t. split; [constructor; by right|].
    simpl. by rewrite app_nil_r.
  - destruct (oldest o) as [[k' e']|] eqn:Hold.
    2:{ apply oldest_None in Hold as ->. done. }
    rewrite (sort_by_timestamp_oldest o k' e' Hwf Hold) in Hl.
    injection Hl as <- <- ->.
    unfold mbind, M_bind, get_index; simpl.
    destruct (Z.leb_spec t EVICTION_TARGET) as [Hle|Hgt].
    + exists [], o, t. split; [constructor; by left|].
      simpl. by rewrite app_nil_r.
    + destruct (IH (obj_delete k o) (t - size e)
                  ini (delete_files [(k, e)] fs) clk tk
                  (cl ++ [Delete (uri e)]) eq_refl (obj_delete_wf o k Hwf))
        as (out & o' & t' & Hev & Hrun).
      exists ((k, e) :: out), o', t'. split; [by econstructor|].
      simpl in Hrun |- *. rewrite Hrun. by rewrite <- app_assoc.
Qed.

(** C4 (amended). [evictIfNeeded] returns at once, leaving the store and
    the files untouched and calling nothing, when [totalSize] is at most
    [MAX_CACHE_SIZE] (100 MiB). Above it, in a store whose file-system
    calls succeed, it removes the oldest entry by timestamp (the first
    encountered among equals) again and again, deleting its file, until
    [totalSize] is at most 0.8 times the maximum or no entry is left, and
    then writes the index once; in a store whose total is the sum of its
    entries' sizes the total so reached is at most 0.8 times the maximum. *)
Theorem evictIfNeeded_evicts_oldest_first (s : state) :
  MAX_CACHE_SIZE = 100 * 1024 * 1024 /\
  10 * EVICTION_TARGET = 8 * MAX_CACHE_SIZE /\
  ((totalSize (index s) <= MAX_CACHE_SIZE)%num ->
   evictIfNeeded env s = (Returns tt, s)) /\
  (forall t : Z,
   totalSize (index s) = t ->
   MAX_CACHE_SIZE < t ->
   obj_wf (entries (index s)) ->
   faults s = [] ->
   exists out o' (t' : Z),
     let idx' := {| entries := o'; totalSize := t' |} in
     let text := JSON_stringify env idx' in
     evicts (entries (index s)) t out o' t' /\
     (t' <= EVICTION_TARGET \/ o' = []) /\
     (consistent (index s) -> t' <= EVICTION_TARGET) /\
     evictIfNeeded env s
     = (Returns tt,
        {| index := idx';
           initialized := initialized s;
           files := <[indexPath env :=
                        {| fsize := Z.of_nat (String.length text);
                           ftext := text |}]>
                      (delete_files out (files s));
           faults := [];
           clock := clock s;
           ticks := ticks s;
           calls := calls s
                    ++ ((fun kv => Delete (uri kv.2)) <$> out)
                    ++ [WriteAsString (indexPath env) text] |})).
Proof.
  split; [reflexivity|]. split; [reflexivity|].
  destruct s as [[o n] ini fs fl clk tk cl]; simpl. split.
  - intros Hle. unfold evictIfNeeded, mbind, M_bind, get_index; simpl.
    by rewrite Hle.
  - intros t -> Hgt Hwf ->.
    destruct (evict_loop_spec (sort_by_timestamp o) o t ini fs clk tk cl
                eq_refl Hwf) as (out & o' & t' & Hev & Hrun).
    exists out, o', t'. split; [exact Hev|]. split; [|split].
    + by eapply evicts_ends.
    + intros [= Hsum]. by eapply evicts_reaches_target.
    + unfold evictIfNeeded, mbind, M_bind, get_index; simpl.
      destruct (Z.leb_spec t MAX_CACHE_SIZE); [lia|].
      simpl in Hrun. rewrite Hrun. rewrite saveIndex_ok.
      by rewrite <- app_assoc.
Qed.

Lemma obj_get_delete {V} (o : obj V) k :
  obj_wf o -> obj_get k (obj_delete k o) = None.
Proof.
  unfold obj_wf, obj_keys. induction o as [|[k' v'] o IH]; simpl; [done|].
  intros [Hk' Hwf]%NoDup_cons. case_decide as Hk.
  - subst k'. destruct (obj_get k o) as [v|] eqn:Hget; [|done].
    destruct Hk'. apply list_elem_of_fmap. exists (k, v).
    split; [done|]. by apply obj_get_Some_elem_of.
  - simpl. rewrite decide_False by done. by apply IH.
Qed.

Lemma obj_delete_length {V} (o : obj V) k v :
  obj_get k o = Some v ->
  length (obj_keys o) = S (length (obj_keys (obj_delete k o))).
Proof.
  unfold obj_keys. induction o as [|[k' v'] o IH]; simpl; [done|].
  case_decide; [done|].
  intros Hget. simpl. f_equal. exact (IH Hget).
Qed.

Lemma obj_get_set {V} (o : obj V) k v : obj_get k (obj_set k v o) = Some v.
Proof.
  induction o as [|[k' v'] o IH]; simpl.
  - by rewrite decide_True.
  - case_decide; simpl; [by rewrite decide_True | by rewrite decide_False].
Qed.

Lemma obj_set_keys {V} (o : obj V) k v v' :
  obj_get k o = Some v' -> obj_keys (obj_set k v o) = obj_keys o.
Proof.
  unfold obj_keys. induction o as [|[k0 v0] o IH]; simpl; [done|].
  case_decide; [done|]. intros Hget. simpl. f_equal. exact (IH Hget).
Qed.

(** C8. In an initialized store whose file-system calls succeed, for a key
    that has an index entry: when the entry's file no longer exists,
    [getCached] returns [null], the entry is gone from the index,
    [totalSize] is smaller by the entry's size, the index is written out
    and [getStats().entryCount] is one less; when the file exists,
    [getCached] sets the entry's timestamp to the current time, writes the
    index out and returns the stored uri. *)
Theorem getCached_prunes_stale_or_touches
    (s : state) (key : string) (entry : CacheEntry) :
  initialized s = true ->
  faults s = [] ->
  obj_wf (entries (index s)) ->
  obj_get key (entries (index s)) = Some entry ->
  (files s !! uri entry = None ->
   exists s',
     let idx' := {| entries := obj_delete key (entries (index s));
                    totalSize := totalSize (index s) - size entry |} in
     let text := JSON_stringify env idx' in
     getCached env key s = (Returns None, s') /\
     index s' = idx' /\
     obj_get key (entries (index s')) = None /\
     entryCount (getStats s') = entryCount (getStats s) - 1 /\
     files s' = <[indexPath env := {| fsize := Z.of_nat (String.length text);
                                      ftext := text |}]> (files s) /\
     calls s' = calls s ++ [GetInfo (uri entry);
                            WriteAsString (indexPath env) text]) /\
  (is_Some (files s !! uri entry) ->
   exists s',
     let touched := {| uri := uri entry; timestamp := clock s (ticks s);
                       size := size entry |} in
     let idx' := {| entries := obj_set key touched (entries (index s));
                    totalSize := totalSize (index s) |} in
     let text := JSON_stringify env idx' in
     getCached env key s = (Returns (Some (uri entry)), s') /\
     index s' = idx' /\
     obj_get key (entries (index s')) = Some touched /\
     obj_keys (entries (index s')) = obj_keys (entries (index s)) /\
     files s' = <[indexPath env := {| fsize := Z.of_nat (String.length text);
                                      ftext := text |}]> (files s) /\
     calls s' = calls s ++ [GetInfo (uri entry);
                            WriteAsString (indexPath env) text]).
Proof.
  destruct s as [[o t] ini fs fl clk tk cl]; simpl.
  intros -> -> Hwf Hget. split.
  - intros Hfile. eexists.
    unfold getCached, initialize, mbind, M_bind, get_initialized, get_index,
      FileSystem.getInfoAsync, fs_await; simpl.
    rewrite (obj_read_own _ _ _ Hget); simpl. rewrite Hfile; simpl.
    split; [reflexivity|]. simpl. split; [reflexivity|].
    split; [by apply obj_get_delete|].
    split; [|split; [done | by rewrite <- app_assoc]].
    rewrite (obj_delete_length o key entry Hget). lia.
  - intros [f Hfile]. eexists.
    unfold getCached, initialize, mbind, M_bind, get_initialized, get_index,
      FileSystem.getInfoAsync, fs_await; simpl.
    rewrite (obj_read_own _ _ _ Hget); simpl. rewrite Hfile; simpl.
    split; [reflexivity|]. simpl. split; [reflexivity|].
    split; [by apply obj_get_set|].
    split; [by eapply obj_set_keys|].
    split; [done | by rewrite <- app_assoc].
Qed.

(** *** Deleting files *)

Lemma without_idemp target fs :
  FileSystem.without target (FileSystem.without target fs)
  = FileSystem.without target fs.
Proof.
  unfold FileSystem.without. apply map_filter_id.
  intros p f Hpf. by apply map_lookup_filter_Some in Hpf as [_ Hp].
Qed.

Lemma without_insert target p f fs :
  FileSystem.within target p = false ->
  FileSystem.without target (<[p := f]> fs)
  = <[p := f]> (FileSystem.without target fs).
Proof. intros Hp. unfold FileSystem.without. by apply map_filter_insert_True. Qed.

Lemma within_refl target : FileSystem.within target target = true.
Proof. unfold FileSystem.within. by rewrite String.eqb_refl. Qed.

Lemma without_lookup_target target fs :
  FileSystem.without target fs !! target = None.
Proof.
  unfold FileSystem.without. apply map_lookup_filter_None. right.
  intros f _. simpl. by rewrite within_refl.
Qed.

(** *** [find_key] *)

Lemma find_key_Some target o key :
  find_key target o = Some key ->
  exists entry, (key, entry) ∈ o /\ uri entry = target.
Proof.
  unfold find_key. intros [Hin Hp]%List.find_some.
  destruct (obj_get key o) as [e|] eqn:Hget; [|done].
  exists e. split; [by apply obj_get_Some_elem_of|].
  by apply bool_decide_eq_true in Hp.
Qed.

Lemma obj_delete_elem_of {V} (o : obj V) k x :
  x ∈ obj_delete k o -> x ∈ o.
Proof.
  induction o as [|[k0 v0] o IH]; simpl; [done|].
  case_decide.
  - intros Hin. by right.
  - intros [->|Hin]%elem_of_cons; [left | right; by apply IH].
Qed.

Lemma NoDup_fmap_elem_of_inj {A B} (f : A -> B) (l : list A) x y :
  NoDup (f <$> l) -> x ∈ l -> y ∈ l -> f x = f y -> x = y.
Proof.
  induction l as [|a l IH]; simpl; intros Hnd Hx Hy Hxy.
  - by apply elem_of_nil in Hx.
  - apply NoDup_cons in Hnd as [Ha Hnd].
    apply elem_of_cons in Hx as [->|Hx]; apply elem_of_cons in Hy as [->|Hy].
    + done.
    + destruct Ha. rewrite Hxy. by apply list_elem_of_fmap_2.
    + destruct Ha. rewrite <- Hxy. by apply list_elem_of_fmap_2.
    + by apply IH.
Qed.

(** Once the entry found for a uri is deleted, no entry is found for it. *)
Lemma find_key_delete target (o : obj CacheEntry) key :
  obj_wf o -> NoDup ((fun kv => uri kv.2) <$> o) ->
  find_key target o = Some key ->
  find_key target (obj_delete key o) = None.
Proof.
  intros Hwf Hnd Hfind.
  destruct (find_key target (obj_delete key o)) as [key'|] eqn:Hfind';
    [|done].
  apply find_key_Some in Hfind as (e & He & Hu).
  apply find_key_Some in Hfind' as (e' & He' & Hu').
  assert ((key', e') = (key, e)) as [= -> ->].
  { apply (NoDup_fmap_elem_of_inj (fun kv => uri kv.2) o); simpl;
      [done | by eapply obj_delete_elem_of | done | congruence]. }
  apply (obj_get_elem_of _ _ _ (obj_delete_wf o key Hwf)) in He'.
  by rewrite obj_get_delete in He'.
Qed.

(** What [delete] does when the file system answers. *)
Lemma delete_ok target idx ini fs clk tk cl :
  delete env target (mkState idx ini fs [] clk tk cl)
  = (Returns tt,
     match find_key target (entries idx) with
     | None | Some EmptyString =>
         mkState idx ini (FileSystem.without target fs) [] clk tk
                 (cl ++ [Delete target])
     | Some key =>
         let idx' :=
           {| entries := obj_delete key (entries idx);
              totalSize := totalSize idx
                           - default 0 (size <$> obj_get key (entries idx)) |}
         in
         let text := JSON_stringify env idx' in
         mkState idx' ini
           (<[indexPath env := {| fsize := Z.of_nat (String.length text);
                                  ftext := text |}]>
              (FileSystem.without target fs))
           [] clk tk
           (cl ++ [Delete target; WriteAsString (indexPath env) text])
     end).
Proof.
  unfold delete, try_catch, mbind, M_bind, FileSystem.deleteAsync, fs_await,
    get_index; simpl.
  destruct (find_key target (entries idx)) as [[|c key]|]; try reflexivity.
  simpl. by rewrite <- app_assoc.
Qed.

(** C9. In a store with a well-formed index whose file-system calls
    succeed, a second [delete] of the same uri right after the first one
    returns without an error and changes neither the index (entries and
    [totalSize]) nor the files: all it does is ask the file system once
    more to delete the uri, which is gone already. *)
Theorem delete_twice_is_delete_once (s : state) (target : string) :
  faults s = [] ->
  well_formed (indexPath env) (index s) ->
  exists s1 s2,
    delete env target s = (Returns tt, s1) /\
    delete env target s1 = (Returns tt, s2) /\
    files s1 !! target = None /\
    index s2 = index s1 /\
    files s2 = files s1 /\
    initialized s2 = initialized s1 /\
    calls s2 = calls s1 ++ [Delete target].
Proof.
  destruct s as [[o t] ini fs fl clk tk cl]; simpl.
  intros -> (Hwf & Hnd & Hcov); simpl in *.
  rewrite delete_ok; simpl.
  destruct (find_key target o) as [key|] eqn:Hfind.
  - destruct key as [|c key].
    + eexists _, _. split; [reflexivity|]. rewrite delete_ok; simpl.
      rewrite Hfind. split; [reflexivity|]. simpl.
      rewrite without_idemp. by rewrite without_lookup_target.
    + assert (Hpath : FileSystem.within target (indexPath env) = false).
      { apply find_key_Some in Hfind as (e & He & <-).
        rewrite Forall_forall in Hcov. by apply (Hcov _ He). }
      eexists _, _. split; [reflexivity|]. rewrite delete_ok; simpl.
      rewrite (find_key_delete target o _ Hwf Hnd Hfind).
      split; [reflexivity|]. simpl.
      rewrite without_insert, without_idemp by done.
      split; [|done].
      rewrite lookup_insert_ne; [apply without_lookup_target|].
      intros <-. by rewrite within_refl in Hpath.
  - eexists _, _. split; [reflexivity|]. rewrite delete_ok; simpl.
    rewrite Hfind. split; [reflexivity|]. simpl.
    rewrite without_idemp. by rewrite without_lookup_target.
Qed.

(** *** Rules for [wp] *)

Lemma wp_ret {A} (a : A) Q E s : Q a s -> wp (mret a) Q E s.
Proof. done. Qed.

Lemma wp_throw {A} e (Q : A -> state -> Prop) E s : E s -> wp (throw e) Q E s.
Proof. done. Qed.

Lemma wp_bind {A B} (m : M A) (f : A -> M B) Q E s :
  wp m (fun a s' => wp (f a) Q E s') E s -> wp (m ≫= f) Q E s.
Proof.
  unfold wp, mbind, M_bind. by destruct (m s) as [[a|e] s'].
Qed.

Lemma wp_try_catch {A} (body : M A) handler Q E s :
  wp body Q (fun s' => forall e, wp (handler e) Q E s') s ->
  wp (try_catch body handler) Q E s.
Proof.
  unfold wp at 1 3, try_catch. destruct (body s) as [[a|e] s']; [done|].
  intros H. apply H.
Qed.

Lemma wp_mono {A} (m : M A) (Q Q' : A -> state -> Prop)
    (E E' : state -> Prop) s :
  wp m Q E s ->
  (forall a s', Q a s' -> Q' a s') -> (forall s', E s' -> E' s') ->
  wp m Q' E' s.
Proof.
  unfold wp. destruct (m s) as [[a|e] s']; auto.
Qed.

Lemma wp_get_index Q E s : Q (index s) s -> wp get_index Q E s.
Proof. done. Qed.

Lemma wp_get_initialized Q E s :
  Q (initialized s) s -> wp get_initialized Q E s.
Proof. done. Qed.

Lemma wp_set_index i Q E s :
  (forall s', index s' = i -> initialized s' = initialized s -> Q tt s') ->
  wp (set_index i) Q E s.
Proof. intros H. by apply H. Qed.

Lemma wp_set_initialized b Q E s :
  (forall s', index s' = index s -> initialized s' = b -> Q tt s') ->
  wp (set_initialized b) Q E s.
Proof. intros H. by apply H. Qed.

Lemma wp_Date_now Q E s :
  (forall now s', same_object s s' -> Q now s') -> wp Date_now Q E s.
Proof. intros H. by apply H. Qed.

Lemma wp_fs_await {A} c name act (Q : A -> state -> Prop) E s :
  (forall s', same_object s s' -> (forall a, Q a s') /\ E s') ->
  wp (fs_await c name act) Q E s.
Proof.
  intros H. unfold wp, fs_await.
  destruct (faults s) as [|[|] fl].
  - destruct (act (files s)) as [[a|e] fs']; by apply H.
  - by apply H.
  - destruct (act (files s)) as [[a|e] fs']; by apply H.
Qed.

(** Any two steps that leave the fields of the class alone. *)
Lemma same_object_refl s : same_object s s.
Proof. done. Qed.

Lemma same_object_trans s1 s2 s3 :
  same_object s1 s2 -> same_object s2 s3 -> same_object s1 s3.
Proof. intros [??] [??]. split; congruence. Qed.

(** *** [initialize] *)

Lemma saveIndex_same_object s :
  wp (saveIndex env)
     (fun _ s' => same_object s s') (fun s' => same_object s s') s.
Proof.
  unfold saveIndex. apply wp_bind, wp_get_index.
  apply wp_fs_await. by intros s' Hs'.
Qed.

Lemma remove_entry_initialized key entry s :
  wp (remove_entry key entry)
     (fun _ s' => initialized s' = initialized s)
     (fun s' => initialized s' = initialized s) s.
Proof.
  unfold remove_entry.
  apply wp_bind, wp_fs_await. intros s1 [_ H1]. split; [intros []|done].
  by apply wp_bind.
Qed.

Lemma cleanup_loop_initialized now l : forall s,
  wp (cleanup_loop now l)
     (fun _ s' => initialized s' = initialized s)
     (fun s' => initialized s' = initialized s) s.
Proof.
  induction l as [|[key entry] l IH]; intros s; simpl; [done|].
  apply wp_bind. case_match.
  - eapply wp_mono; [apply remove_entry_initialized| |done].
    intros [] s1 H1; simpl. eapply wp_mono; [apply IH| |]; simpl; congruence.
  - apply wp_ret. apply IH.
Qed.

Lemma cleanup_initialized s :
  wp (cleanup env)
     (fun _ s' => initialized s' = initialized s)
     (fun s' => initialized s' = initialized s) s.
Proof.
  unfold cleanup. apply wp_bind, wp_Date_now. intros now s1 [_ H1].
  apply wp_bind, wp_get_index. apply wp_bind.
  eapply wp_mono; [apply cleanup_loop_initialized| |]; simpl; [|congruence].
  intros [] s2 H2.
  eapply wp_mono; [apply saveIndex_same_object| |]; simpl;
    intros; unfold same_object in *; intuition congruence.
Qed.

Lemma initialize_returns (s : state) :
  exists s0, initialize env s = (Returns tt, s0) /\ initialized s0 = true.
Proof.
  assert (H : wp (initialize env)
                (fun _ s' => initialized s' = true) (fun _ => False) s).
  { unfold initialize. apply wp_bind, wp_get_initialized.
    destruct (initialized s) eqn:Hini; [by apply wp_ret|].
    apply wp_try_catch.
    apply wp_bind, wp_fs_await. intros s1 _.
    assert (Hhandler : forall s', forall e : js_error,
      wp (set_index emptyIndex ;; set_initialized true)
         (fun _ s'' => initialized s'' = true) (fun _ => False) s').
    { intros s' _. by apply wp_bind. }
    split; [intros []|done].
    apply wp_bind, wp_fs_await. intros s2 _. split; [intros []|done].
    apply wp_bind, wp_fs_await. intros s3 _. split; [intros indexInfo|done].
    apply wp_bind.
    apply wp_mono with (Q := fun _ _ => True)
                       (E := fun s' => forall e : js_error,
      wp (set_index emptyIndex ;; set_initialized true)
         (fun _ s'' => initialized s'' = true) (fun _ => False) s');
      [|intros [] s4 _|done].
    { destruct (exists_ indexInfo); [|done].
      apply wp_bind, wp_fs_await. intros s4 _. split; [intros text|done].
      by destruct (JSON_parse env text). }
    apply wp_bind, wp_set_initialized. intros s5 _ H5.
    eapply wp_mono; [apply cleanup_initialized| |]; simpl; [congruence|done]. }
  unfold wp in H. destruct (initialize env s) as [[[]|e] s0]; [eauto|done].
Qed.

Lemma wp_makeDirectoryAsync dir Q E s :
  (forall s', same_object s s' -> files s' = files s -> Q tt s' /\ E s') ->
  wp (FileSystem.makeDirectoryAsync dir) Q E s.
Proof.
  intros H. unfold wp, FileSystem.makeDirectoryAsync, fs_await.
  destruct (faults s) as [|[|] fl]; by apply H.
Qed.

Lemma wp_getInfoAsync path Q E s :
  (forall s', same_object s s' -> files s' = files s ->
     E s' /\
     match files s !! path with
     | Some f => Q {| exists_ := true; size_ := Some (fsize f) |} s'
     | None => Q {| exists_ := false; size_ := None |} s'
     end) ->
  wp (FileSystem.getInfoAsync path) Q E s.
Proof.
  intros H. unfold wp, FileSystem.getInfoAsync, fs_await.
  destruct (faults s) as [|[|] fl]; [|by apply H|];
    match goal with |- context [tail ?l] =>
      destruct (H (mkState (index s) (initialized s) (files s) (tail l)
                     (clock s) (ticks s) (calls s ++ [GetInfo path])))
        as [_ HQ]; [done|done|]
    end;
    by destruct (files s !! path).
Qed.

Lemma wp_readAsStringAsync path Q E s :
  (forall s', same_object s s' -> files s' = files s ->
     E s' /\ forall f, files s !! path = Some f -> Q (ftext f) s') ->
  wp (FileSystem.readAsStringAsync path) Q E s.
Proof.
  intros H. unfold wp, FileSystem.readAsStringAsync, fs_await.
  destruct (faults s) as [|[|] fl]; [|by apply H|];
    match goal with |- context [tail ?l] =>
      destruct (H (mkState (index s) (initialized s) (files s) (tail l)
                     (clock s) (ticks s) (calls s ++ [ReadAsString path])))
        as [HE HQ]; [done|done|]
    end;
    destruct (files s !! path); auto.
Qed.

(** *** Numbers *)

Lemma num_sub_0_r (a : number) : (a - 0)%num = a.
Proof. destruct a as [z|]; simpl; [|done]. by rewrite Z.sub_0_r. Qed.

Lemma num_add_sub (a : number) (x : Z) : (a + x - x)%num = a.
Proof. destruct a as [z|]; simpl; [|done]. f_equal. lia. Qed.

Lemma num_sub_sub (a : number) (x y : Z) : (a - x - y)%num = (a - (x + y))%num.
Proof. destruct a as [z|]; simpl; [|done]. by rewrite Z.sub_add_distr. Qed.

Lemma cleanup_loop_spec now l : forall idx ini fs clk tk cl,
  cleanup_loop now l (mkState idx ini fs [] clk tk cl)
  = (Returns tt,
     mkState
       {| entries := foldl (fun o kv => obj_delete kv.1 o) (entries idx)
                       (filter (expired now) l);
          totalSize := totalSize idx - sum_sizes (filter (expired now) l) |}
       ini (delete_files (filter (expired now) l) fs) [] clk tk
       (cl ++ ((fun kv => Delete (uri kv.2)) <$> filter (expired now) l))).
Proof.
  induction l as [|[key entry] l IH]; intros [o t] ini fs clk tk cl.
  - simpl. by rewrite num_sub_0_r, app_nil_r.
  - cbn [cleanup_loop]. unfold mbind, M_bind.
    destruct (Z.ltb_spec MAX_CACHE_AGE (now - timestamp entry)) as [Hold|Hnew].
    + rewrite remove_entry_ok, IH. rewrite filter_cons_True by done.
      simpl. rewrite <- app_assoc. simpl.
      by rewrite num_sub_sub.
    + unfold mret, M_ret. rewrite IH.
      rewrite filter_cons_False by (unfold expired; simpl; lia). done.
Qed.

Lemma obj_delete_middle {V} (front : obj V) k v back :
  k ∉ obj_keys front ->
  obj_delete k (front ++ (k, v) :: back) = front ++ back.
Proof.
  unfold obj_keys. induction front as [|[k' v'] front IH]; simpl; intros Hk.
  - by rewrite decide_True.
  - rewrite decide_False by (intros ->; apply Hk; left).
    rewrite IH; [done|]. intros Hin. apply Hk. by right.
Qed.

Lemma delete_filtered {V} (P : string * V -> Prop)
    `{!forall x, Decision (P x)} (l : list (string * V)) : forall front,
  obj_wf (front ++ l) ->
  foldl (fun o kv => obj_delete kv.1 o) (front ++ l) (filter P l)
  = front ++ filter (fun kv => ~ P kv) l.
Proof.
  induction l as [|[k v] l IH]; intros front Hwf.
  - reflexivity.
  - destruct (decide (P (k, v))) as [HP|HP].
    + rewrite filter_cons_True by done.
      rewrite (filter_cons_False (fun kv => ~ P kv)) by auto.
      cbn [foldl fst]. rewrite obj_delete_middle.
      * apply IH. unfold obj_wf, obj_keys in *.
        rewrite fmap_app in *. simpl in Hwf.
        apply NoDup_app in Hwf as (H1 & H2 & [_ H3]%NoDup_cons).
        apply NoDup_app. split; [done|]. split; [|done].
        intros x Hx Hin. apply (H2 x Hx). by right.
      * unfold obj_wf, obj_keys in *. rewrite fmap_app in Hwf.
        apply NoDup_app in Hwf as (_ & H2 & _). intros Hin.
        apply (H2 k Hin). left.
    + rewrite filter_cons_False by done.
      rewrite (filter_cons_True (fun kv => ~ P kv)) by done.
      rewrite (cons_middle (k, v) front l), app_assoc.
      rewrite IH by (by rewrite <- app_assoc). by rewrite <- app_assoc.
Qed.

(** What [cleanup] does when the file system answers. *)
Lemma cleanup_ok idx ini fs clk tk cl :
  obj_wf (entries idx) ->
  let gone := filter (expired (clk tk)) (entries idx) in
  let idx' :=
    {| entries := filter (fun kv => ~ expired (clk tk) kv) (entries idx);
       totalSize := totalSize idx - sum_sizes gone |} in
  cleanup env (mkState idx ini fs [] clk tk cl)
  = (Returns tt,
     mkState idx' ini
       (<[indexPath env := index_file env idx']> (delete_files gone fs))
       [] clk (S tk)
       (cl ++ ((fun kv => Delete (uri kv.2)) <$> gone)
           ++ [WriteAsString (indexPath env) (JSON_stringify env idx')])).
Proof.
  intros Hwf. simpl.
  unfold cleanup, mbind, M_bind, Date_now, get_index; simpl.
  rewrite cleanup_loop_spec. simpl.
  rewrite (delete_filtered (expired (clk tk)) (entries idx) []) by done.
  simpl. rewrite saveIndex_ok. by rewrite <- app_assoc.
Qed.

(** The entries [cleanup] keeps are those not older than the limit. *)
Lemma kept_by_cleanup now (o : obj CacheEntry) kv :
  kv ∈ filter (fun kv => ~ expired now kv) o <->
  kv ∈ o /\ now - timestamp kv.2 <= MAX_CACHE_AGE.
Proof.
  rewrite list_elem_of_filter. unfold expired. split.
  - intros [Hage Hin]. split; [done|lia].
  - intros [Hin Hage]. split; [lia|done].
Qed.

(** C7. [initialize] never throws, whatever the file system holds and
    whichever of its calls fail, and it leaves the store initialized. In a
    store not yet initialized (its index still the empty one it is built
    with), an index file that is absent or that [JSON.parse] rejects leaves
    the index empty, with no entries and [totalSize] 0. When the index
    file exists and parses (and the file system answers), [initialize]
    goes on, with the parsed index in place, to run [cleanup], the cleanup
    of expired entries: of the parsed index exactly the entries not older
    than [MAX_CACHE_AGE] at the time of the call are left, in their order,
    the sizes of the others are taken off [totalSize], their files are
    deleted and the index is written out. *)
Theorem initialize_never_throws_and_falls_back (s : state) :
  (exists s', initialize env s = (Returns tt, s') /\ initialized s' = true) /\
  (initialized s = false ->
   index s = emptyIndex ->
   (files s !! indexPath env = None \/
    exists f, files s !! indexPath env = Some f /\
              JSON_parse env (ftext f) = None) ->
   index (initialize env s).2 = emptyIndex /\
   entryCount (getStats (initialize env s).2) = 0 /\
   totalSize_ (getStats (initialize env s).2) = 0) /\
  (initialized s = false ->
   faults s = [] ->
   forall f idx,
     files s !! indexPath env = Some f ->
     JSON_parse env (ftext f) = Some idx ->
     obj_wf (entries idx) ->
     let now := clock s (ticks s) in
     let gone := filter (expired now) (entries idx) in
     let idx' :=
       {| entries := filter (fun kv => ~ expired now kv) (entries idx);
          totalSize := totalSize idx - sum_sizes gone |} in
     let loading := [MakeDirectory (CACHE_DIR env);
                     MakeDirectory (EDITS_DIR env);
                     GetInfo (indexPath env);
                     ReadAsString (indexPath env)] in
     initialize env s
     = cleanup env
         {| index := idx; initialized := true; files := files s;
            faults := []; clock := clock s; ticks := ticks s;
            calls := calls s ++ loading |} /\
     initialize env s
     = (Returns tt,
        {| index := idx';
           initialized := true;
           files := <[indexPath env := index_file env idx']>
                      (delete_files gone (files s));
           faults := [];
           clock := clock s;
           ticks := S (ticks s);
           calls := calls s ++ loading
                    ++ ((fun kv => Delete (uri kv.2)) <$> gone)
                    ++ [WriteAsString (indexPath env)
                          (JSON_stringify env idx')] |}) /\
     (forall kv, kv ∈ entries idx' <->
        kv ∈ entries idx /\ now - timestamp kv.2 <= MAX_CACHE_AGE)).
Proof.
  split; [apply initialize_returns|]. split.
  - intros Hini Hidx Hfile.
    assert (H : wp (initialize env)
                  (fun _ s' => index s' = emptyIndex) (fun _ => False) s).
    { unfold initialize. apply wp_bind, wp_get_initialized. rewrite Hini.
      apply wp_try_catch.
      assert (Hhandler : forall s', forall e : js_error,
        wp (set_index emptyIndex ;; set_initialized true)
           (fun _ s'' => index s'' = emptyIndex) (fun _ => False) s').
      { intros s' _. apply wp_bind, wp_set_index. intros s1 H1 _.
        apply wp_set_initialized. congruence. }
      apply wp_bind, wp_makeDirectoryAsync. intros s1 [Hi1 _] Hf1.
      split; [|done].
      apply wp_bind, wp_makeDirectoryAsync. intros s2 [Hi2 _] Hf2.
      split; [|done].
      apply wp_bind, wp_getInfoAsync. intros s3 [Hi3 _] Hf3.
      split; [done|]. rewrite Hf2, Hf1.
      assert (Hrest : forall s4, index s4 = emptyIndex ->
        wp (set_initialized true ;; cleanup env)
           (fun _ s' => index s' = emptyIndex)
           (fun s' => forall e : js_error,
              wp (set_index emptyIndex ;; set_initialized true)
                 (fun _ s'' => index s'' = emptyIndex) (fun _ => False) s')
           s4).
      { intros s4 H4.
        apply wp_bind, wp_set_initialized. intros s5 H5 _.
        unfold cleanup. apply wp_bind, wp_Date_now. intros now s6 [H6 _].
        apply wp_bind, wp_get_index.
        rewrite H6, H5, H4. simpl. apply wp_bind, wp_ret.
        eapply wp_mono; [apply saveIndex_same_object| |]; simpl.
        - intros _ s7 [H7 _]. congruence.
        - intros s7 _. apply Hhandler. }
      destruct Hfile as [Hnone|(f & Hsome & Hparse)].
      - rewrite Hnone. apply wp_bind, wp_ret. apply Hrest. congruence.
      - rewrite Hsome. apply wp_bind. simpl.
        apply wp_bind, wp_readAsStringAsync. intros s4 _ Hf4.
        split; [done|]. intros f'. rewrite Hf3, Hf2, Hf1, Hsome.
        intros [= <-]. by rewrite Hparse. }
    unfold wp in H. unfold getStats.
    destruct (initialize env s) as [[[]|e] s0]; [|done]. simpl.
    by rewrite H.
  - destruct s as [idx0 ini fs fl clk tk cl]; simpl.
    intros -> -> f idx Hfile Hparse Hwf.
    assert (Hrun : initialize env (mkState idx0 false fs [] clk tk cl)
                   = cleanup env
                       (mkState idx true fs [] clk tk
                          (cl ++ [MakeDirectory (CACHE_DIR env);
                                  MakeDirectory (EDITS_DIR env);
                                  GetInfo (indexPath env);
                                  ReadAsString (indexPath env)]))).
    { unfold initialize, try_catch, mbind, M_bind, get_initialized,
        FileSystem.makeDirectoryAsync, FileSystem.getInfoAsync,
        FileSystem.readAsStringAsync, fs_await; simpl.
      rewrite Hfile; simpl. rewrite Hfile; simpl. rewrite Hparse; simpl.
      rewrite <- !app_assoc; simpl.
      by rewrite (cleanup_ok idx true fs clk tk _ Hwf). }
    split; [exact Hrun|]. split; [|apply kept_by_cleanup].
    rewrite Hrun, (cleanup_ok idx true fs clk tk _ Hwf).
    by rewrite <- !app_assoc.
Qed.

(** *** [cacheImage] *)

(** C6. When the copy of the source file fails, because the source does
    not exist or because the file system rejects the call, [cacheImage]
    throws its error ("Failed to cache image", wrapping the cause) and the
    index is the one [initialize] left: no entry was added, [totalSize] and
    the entry count are what they were, and no file was written. *)
Theorem cacheImage_failed_copy_leaves_index
    (s : state) (sourceUri : string) (operation : option string) :
  let s0 := (initialize env s).2 in
  files s0 !! sourceUri = None \/ head (faults s0) = Some true ->
  exists cause s',
    cacheImage env sourceUri operation s
    = (Throws (Error "Failed to cache image" cause), s') /\
    index s' = index s0 /\
    getStats s' = getStats s0 /\
    files s' = files s0 /\
    initialized s' = true.
Proof.
  destruct (initialize_returns s) as (s0 & Hinit & Hini0).
  rewrite Hinit. simpl. intros Hfail.
  unfold cacheImage, mbind at 1, M_bind at 1. rewrite Hinit.
  unfold generateKey, try_catch, mbind, M_bind, Date_now,
    FileSystem.copyAsync, fs_await; simpl.
  destruct s0 as [idx ini fs fl clk tk cl]; simpl in *.
  destruct fl as [|[|] fl]; simpl.
  - destruct Hfail as [->|[=]]. by eexists _, _.
  - by eexists _, _.
  - destruct Hfail as [->|[=]]. by eexists _, _.
Qed.

(** *** Names of cached files *)

Lemma append_nil s : "" +:+ s = s.
Proof. reflexivity. Qed.

Lemma append_cons c a b : String c a +:+ b = String c (a +:+ b).
Proof. reflexivity. Qed.

Lemma has_char_app c a b :
  has_char c (a +:+ b) = has_char c a || has_char c b.
Proof.
  induction a as [|c' a IH]; [done|].
  rewrite append_cons. simpl. rewrite IH. by rewrite orb_assoc.
Qed.

Lemma split_segments sep s :
  split sep s <> [] /\
  Forall (fun seg => has_char sep seg = false) (split sep s).
Proof.
  induction s as [|c s [Hne IH]]; simpl.
  - split; [done|]. by repeat constructor.
  - destruct (Ascii.eqb_spec c sep) as [->|Hc].
    + split; [done|]. by constructor.
    + destruct (split sep s) as [|x xs]; [done|].
      split; [done|]. apply Forall_cons in IH as [Hx Hxs].
      constructor; [|done]. simpl. rewrite Hx.
      by destruct (Ascii.eqb_spec c sep).
Qed.

Lemma extension_has_no_dot sourceUri :
  has_char "." (or_else (last (split "." sourceUri)) "jpg") = false.
Proof.
  destruct (split_segments "." sourceUri) as [_ Hfree].
  destruct (last (split "." sourceUri)) as [seg|] eqn:Hlast; [|done].
  apply last_Some in Hlast as [l' Hl']. rewrite Hl' in Hfree.
  rewrite Forall_app, Forall_singleton in Hfree. destruct Hfree as [_ Hseg].
  by destruct seg.
Qed.

Lemma key_for_has_underscore sourceUri operation now :
  has_char "_" (key_for sourceUri operation now) = true.
Proof.
  unfold key_for. rewrite !has_char_app. simpl.
  by rewrite !orb_true_r.
Qed.

Lemma dotted_name_inj k1 : forall k2 e1 e2,
  k1 +:+ "." +:+ e1 = k2 +:+ "." +:+ e2 ->
  has_char "." e1 = false -> has_char "." e2 = false ->
  k1 = k2.
Proof.
  induction k1 as [|c1 k1 IH]; intros [|c2 k2] e1 e2;
    rewrite ?append_cons, ?append_nil; intros Heq H1 H2.
  - done.
  - injection Heq as <- ->. rewrite has_char_app in H1. simpl in H1.
    by rewrite orb_true_r in H1.
  - injection Heq as -> <-. rewrite has_char_app in H2. simpl in H2.
    by rewrite orb_true_r in H2.
  - injection Heq as -> Heq. f_equal. exact (IH k2 e1 e2 Heq H1 H2).
Qed.

Lemma prefix_app a b c : String.prefix (a +:+ b) (a +:+ c) = String.prefix b c.
Proof.
  induction a as [|x a IH]; [done|].
  rewrite !append_cons. simpl. by destruct (ascii_dec x x).
Qed.

Lemma prefix_has_char c p : forall q,
  String.prefix p q = true -> has_char c p = true -> has_char c q = true.
Proof.
  induction p as [|x p IH]; intros [|y q]; simpl; try done.
  destruct (ascii_dec x y) as [->|]; [|done].
  intros Hpre. destruct (Ascii.eqb y c); [done|]. simpl. by apply IH.
Qed.

Lemma prefix_refl p : String.prefix p p = true.
Proof. induction p as [|x p IH]; simpl; [done|]. by destruct (ascii_dec x x). Qed.

Lemma append_assoc_r (a b c : string) : (a +:+ b) +:+ c = a +:+ (b +:+ c).
Proof.
  induction a as [|x a IH]; [done|]. rewrite !append_cons. by rewrite IH.
Qed.

(** The file of a managed entry is not the index file, nor a directory
    above it. *)
Lemma managed_not_index_file kv :
  managed (CACHE_DIR env) kv ->
  FileSystem.within (uri kv.2) (indexPath env) = false.
Proof.
  intros (Hkey & ext & Hext & Huri).
  assert (Hpre : forall rest,
    String.prefix (uri kv.2 +:+ rest) (indexPath env) = false).
  { intros rest. rewrite Huri. unfold indexPath.
    rewrite !append_assoc_r, prefix_app.
    destruct (String.prefix _ _) eqn:Hp; [|done].
    apply (prefix_has_char "_") in Hp; [done|].
    rewrite has_char_app, Hkey. done. }
  unfold FileSystem.within. apply orb_false_intro.
  - destruct (String.eqb_spec (indexPath env) (uri kv.2)) as [Heq|]; [|done].
    specialize (Hpre ""). rewrite <- Heq in Hpre.
    assert (indexPath env +:+ "" = indexPath env) as Hnil.
    { generalize (indexPath env). intros p.
      induction p as [|x p IH]; [done|]. rewrite append_cons. by rewrite IH. }
    rewrite Hnil, prefix_refl in Hpre. done.
  - destruct (ends_with_slash (uri kv.2)); [|apply Hpre].
    specialize (Hpre ""). 
    assert (uri kv.2 +:+ "" = uri kv.2) as Hnil.
    { generalize (uri kv.2). intros p.
      induction p as [|x p IH]; [done|]. rewrite append_cons. by rewrite IH. }
    by rewrite Hnil in Hpre.
Qed.

(** Managed entries under different keys have different files. *)
Lemma managed_uri_inj kv1 kv2 :
  managed (CACHE_DIR env) kv1 -> managed (CACHE_DIR env) kv2 ->
  uri kv1.2 = uri kv2.2 -> kv1.1 = kv2.1.
Proof.
  intros (_ & e1 & He1 & Hu1) (_ & e2 & He2 & Hu2) Heq.
  rewrite Hu1, Hu2 in Heq. apply (inj (String.app _)) in Heq.
  by eapply dotted_name_inj.
Qed.

Section Invariant.

Variable summed : bool.


(** *** The invariant of the store under updates of the index *)

Lemma obj_get_delete_ne {V} (o : obj V) k k' :
  k' <> k -> obj_get k' (obj_delete k o) = obj_get k' o.
Proof.
  intros Hne. induction o as [|[k0 v0] o IH]; simpl; [done|].
  destruct (decide (k0 = k)) as [->|Hk0].
  - by rewrite decide_False.
  - simpl. by rewrite IH.
Qed.

Lemma obj_get_None_keys {V} (o : obj V) k :
  obj_get k o = None -> k ∉ obj_keys o.
Proof.
  unfold obj_keys. induction o as [|[k0 v0] o IH]; simpl.
  - intros _ Hin. by apply elem_of_nil in Hin.
  - case_decide; [done|]. intros Hget [->|Hin]%elem_of_cons; [done|].
    by apply IH.
Qed.

Lemma obj_set_fresh {V} (o : obj V) k v :
  obj_get k o = None -> obj_set k v o = o ++ [(k, v)].
Proof.
  induction o as [|[k0 v0] o IH]; simpl; [done|].
  case_decide; [done|]. intros Hget. by rewrite IH.
Qed.

Lemma obj_set_elem_of {V} (o : obj V) k v x :
  x ∈ obj_set k v o -> x ∈ o \/ x = (k, v).
Proof.
  induction o as [|[k0 v0] o IH]; simpl.
  - intros ->%list_elem_of_singleton. by right.
  - case_decide as Hk.
    + subst k0. intros [->|Hin]%elem_of_cons; [by right|]. left. by right.
    + intros [->|Hin]%elem_of_cons; [left; by left|].
      destruct (IH Hin) as [?|?]; [left; by right | by right].
Qed.

Lemma sum_sizes_app o1 o2 :
  sum_sizes (o1 ++ o2) = sum_sizes o1 + sum_sizes o2.
Proof.
  unfold sum_sizes. induction o1 as [|kv o1 IH]; simpl; [done|].
  rewrite IH. lia.
Qed.

Lemma sum_sizes_set o key entry entry' :
  obj_get key o = Some entry ->
  sum_sizes (obj_set key entry' o) = sum_sizes o - size entry + size entry'.
Proof.
  induction o as [|[k e] o IH]; simpl; [done|].
  case_decide.
  - intros [= ->]. simpl. lia.
  - intros Hget. simpl. rewrite (IH Hget). lia.
Qed.

Lemma store_inv_empty dir : store_inv summed dir emptyIndex.
Proof. split; [done|]. split; constructor. Qed.

Lemma store_inv_delete dir idx key entry :
  store_inv summed dir idx ->
  obj_get key (entries idx) = Some entry ->
  store_inv summed dir {| entries := obj_delete key (entries idx);
                   totalSize := totalSize idx - size entry |}.
Proof.
  intros (Hsum & Hwf & Hman) Hget. split; [|split]; simpl.
  - intros Hb. specialize (Hsum Hb).
    unfold consistent in *; simpl. rewrite Hsum; simpl.
    by rewrite (sum_sizes_delete _ _ _ Hget).
  - by apply obj_delete_wf.
  - rewrite Forall_forall in Hman |- *. intros kv Hin.
    apply Hman. by eapply obj_delete_elem_of.
Qed.

Lemma store_inv_insert dir idx key entry :
  store_inv summed dir idx ->
  (summed = true -> obj_get key (entries idx) = None) ->
  managed dir (key, entry) ->
  store_inv summed dir {| entries := obj_set key entry (entries idx);
                          totalSize := totalSize idx + size entry |}.
Proof.
  intros (Hsum & Hwf & Hman) Hfresh Hnew. split; [|split]; simpl.
  - intros Hb. specialize (Hsum Hb).
    rewrite (obj_set_fresh _ _ _ (Hfresh Hb)).
    unfold consistent in *; simpl. rewrite Hsum, sum_sizes_app; simpl.
    f_equal. unfold sum_sizes; simpl. lia.
  - destruct (obj_get key (entries idx)) as [old|] eqn:Hget.
    + unfold obj_wf. by rewrite (obj_set_keys _ _ _ _ Hget).
    + rewrite (obj_set_fresh _ _ _ Hget).
      unfold obj_wf, obj_keys in *. rewrite fmap_app. simpl.
      apply NoDup_app. split; [done|]. split; [|apply NoDup_singleton].
      intros k Hk ->%list_elem_of_singleton.
      by apply (obj_get_None_keys _ _ Hget).
  - rewrite Forall_forall in Hman |- *. intros kv Hin.
    apply obj_set_elem_of in Hin as [Hin| ->]; [by apply Hman|done].
Qed.

Lemma store_inv_touch dir idx key entry now :
  store_inv summed dir idx ->
  obj_get key (entries idx) = Some entry ->
  store_inv summed dir
    {| entries := obj_set key {| uri := uri entry; timestamp := now;
                                 size := size entry |} (entries idx);
       totalSize := totalSize idx |}.
Proof.
  intros (Hsum & Hwf & Hman) Hget. split; [|split]; simpl.
  - intros Hb. specialize (Hsum Hb). unfold consistent in *; simpl.
    rewrite Hsum, (sum_sizes_set _ _ _ _ Hget). simpl. f_equal. lia.
  - unfold obj_wf. by rewrite (obj_set_keys _ _ _ _ Hget).
  - rewrite Forall_forall in Hman |- *. intros kv Hin.
    apply obj_set_elem_of in Hin as [Hin| ->]; [by apply Hman|].
    apply obj_get_Some_elem_of in Hget. exact (Hman _ Hget).
Qed.

(** The shape of the index does not depend on [totalSize]. *)
Lemma store_inv_shape dir idx key n :
  summed <> true ->
  store_inv summed dir idx ->
  store_inv summed dir {| entries := obj_delete key (entries idx);
                          totalSize := n |}.
Proof.
  intros Hshape (_ & Hwf & Hman). split; [done|]. split; simpl.
  - by apply obj_delete_wf.
  - rewrite Forall_forall in Hman |- *. intros kv Hin.
    apply Hman. by eapply obj_delete_elem_of.
Qed.

(** *** The invariant of the store, method by method *)

Lemma ok_same_object s s' :
  ok summed env s -> same_object s s' -> ok summed env s'.
Proof. intros [Hini Hinv] [Hidx Hini']. split; congruence. Qed.

Lemma wp_Date_now_value Q E s :
  (forall s', same_object s s' -> Q (clock s (ticks s)) s') ->
  wp Date_now Q E s.
Proof. intros H. by apply H. Qed.

Lemma wp_update_index (f : CacheIndex -> CacheIndex) Q E s :
  (forall s', index s' = f (index s) -> initialized s' = initialized s ->
              Q tt s') ->
  wp (idx ← get_index; set_index (f idx)) Q E s.
Proof. intros H. apply wp_bind, wp_get_index, wp_set_index, H. Qed.

Lemma saveIndex_ok_inv s :
  ok summed env s ->
  wp (saveIndex env)
     (fun _ => ok summed env) (ok summed env) s.
Proof.
  intros Hok. eapply wp_mono; [apply saveIndex_same_object| |]; simpl;
    eauto using ok_same_object.
Qed.

Lemma remove_entry_inv key entry s :
  ok summed env s ->
  obj_get key (entries (index s)) = Some entry ->
  wp (remove_entry key entry)
     (fun _ s' =>
        (ok summed env) s' /\
        entries (index s') = obj_delete key (entries (index s)))
     (fun s' => same_object s s') s.
Proof.
  intros [Hini Hinv] Hget. unfold remove_entry.
  apply wp_bind, wp_fs_await. intros s1 [Hi1 Hn1]. split; [intros []|done].
  apply wp_bind. unfold sub_totalSize. apply wp_update_index.
  intros s2 Hi2 Hn2.
  unfold delete_entry. apply wp_update_index. intros s3 Hi3 Hn3.
  rewrite Hi3, Hi2, Hi1. simpl. split; [|done]. split; [congruence|].
  rewrite Hi3, Hi2, Hi1. simpl. by apply store_inv_delete.
Qed.

Lemma snapshot_of_tail key entry rest s s' :
  snapshot_of ((key, entry) :: rest) s ->
  entries (index s') = obj_delete key (entries (index s)) ->
  snapshot_of rest s'.
Proof.
  intros [[Hkey Hnd]%NoDup_cons Hget] Hidx. split; [done|].
  intros k e Hin. rewrite Hidx, obj_get_delete_ne; [apply Hget; by right|].
  intros ->. apply Hkey. apply list_elem_of_fmap. by exists (key, e).
Qed.

Lemma snapshot_of_skip x rest s :
  snapshot_of (x :: rest) s -> snapshot_of rest s.
Proof.
  intros [[_ Hnd]%NoDup_cons Hget]. split; [done|].
  intros k e Hin. apply Hget. by right.
Qed.

Lemma cleanup_loop_inv now l : forall s,
  ok summed env s -> snapshot_of l s ->
  wp (cleanup_loop now l) (fun _ => ok summed env) (ok summed env) s.
Proof.
  induction l as [|[key entry] rest IH]; intros s Hok Hsnap; simpl;
    [by apply wp_ret|].
  apply wp_bind. destruct (MAX_CACHE_AGE <? now - timestamp entry).
  - eapply wp_mono; [apply (remove_entry_inv key entry s Hok)| |]; simpl.
    + apply Hsnap. left.
    + intros [] s1 [Hok1 Hidx1]. apply IH; [done|].
      by eapply snapshot_of_tail.
    + intros s1. by apply ok_same_object.
  - apply wp_ret, IH; [done|]. by eapply snapshot_of_skip.
Qed.

Lemma evict_loop_inv l : forall s,
  ok summed env s -> snapshot_of l s ->
  wp (evict_loop l) (fun _ => ok summed env) (ok summed env) s.
Proof.
  induction l as [|[key entry] rest IH]; intros s Hok Hsnap; simpl;
    [by apply wp_ret|].
  apply wp_bind, wp_get_index.
  destruct (_ <=? _)%num; [by apply wp_ret|].
  apply wp_bind.
  eapply wp_mono; [apply (remove_entry_inv key entry s Hok)| |]; simpl.
  - apply Hsnap. left.
  - intros [] s1 [Hok1 Hidx1]. apply IH; [done|].
    by eapply snapshot_of_tail.
  - intros s1. by apply ok_same_object.
Qed.

Lemma snapshot_of_entries s :
  obj_wf (entries (index s)) -> snapshot_of (entries (index s)) s.
Proof.
  intros Hwf. split; [done|]. intros k e Hin. by apply obj_get_elem_of.
Qed.

Lemma insert_by_timestamp_perm x l : insert_by_timestamp x l ≡ₚ x :: l.
Proof.
  induction l as [|y l IH]; simpl; [done|].
  case_match; [done|]. rewrite IH. apply Permutation_swap.
Qed.

Lemma sort_by_timestamp_perm o : sort_by_timestamp o ≡ₚ o.
Proof.
  induction o as [|x o IH]; simpl; [done|].
  by rewrite insert_by_timestamp_perm, IH.
Qed.

Lemma snapshot_of_sorted s :
  obj_wf (entries (index s)) ->
  snapshot_of (sort_by_timestamp (entries (index s))) s.
Proof.
  intros Hwf. split.
  - by rewrite sort_by_timestamp_perm.
  - intros k e Hin. apply obj_get_elem_of; [done|].
    by rewrite sort_by_timestamp_perm in Hin.
Qed.

Lemma evictIfNeeded_inv s :
  ok summed env s ->
  wp (evictIfNeeded env)
     (fun _ => ok summed env) (ok summed env) s.
Proof.
  intros Hok. unfold evictIfNeeded. apply wp_bind, wp_get_index.
  destruct (_ <=? _)%num; [by apply wp_ret|].
  apply wp_bind.
  eapply wp_mono; [apply (evict_loop_inv _ s Hok)| |]; simpl.
  - apply snapshot_of_sorted, Hok.
  - intros [] s1 Hok1. by apply saveIndex_ok_inv.
  - done.
Qed.

Lemma cleanup_inv s :
  ok summed env s ->
  wp (cleanup env)
     (fun _ => ok summed env) (ok summed env) s.
Proof.
  intros Hok. unfold cleanup.
  apply wp_bind, wp_Date_now. intros now s1 Hs1.
  apply wp_bind, wp_get_index. apply wp_bind.
  pose proof (ok_same_object _ _ Hok Hs1) as Hok1.
  eapply wp_mono; [apply (cleanup_loop_inv _ _ s1 Hok1)| |]; simpl.
  - apply snapshot_of_entries, Hok1.
  - intros [] s2 Hok2. by apply saveIndex_ok_inv.
  - done.
Qed.

Lemma initialize_initialized s :
  initialized s = true -> initialize env s = (Returns tt, s).
Proof.
  intros Hini. unfold initialize, mbind, M_bind, get_initialized.
  by rewrite Hini.
Qed.

Lemma wp_initialize_initialized {A} (m : M A) Q E s :
  initialized s = true -> wp m Q E s -> wp (initialize env ;; m) Q E s.
Proof.
  intros Hini Hm. apply wp_bind. unfold wp at 1.
  by rewrite initialize_initialized.
Qed.

Lemma cacheImage_inv sourceUri operation s :
  ok summed env s ->
  (summed = true -> fresh_key (CacheImage sourceUri operation) s) ->
  wp (cacheImage env sourceUri operation)
     (fun _ => ok summed env) (ok summed env) s.
Proof.
  intros Hok Hfresh. simpl in Hfresh. unfold cacheImage.
  apply wp_initialize_initialized; [apply Hok|].
  apply wp_bind. unfold generateKey.
  apply wp_bind, wp_Date_now_value. intros s1 Hs1. apply wp_ret.
  set (key := key_for sourceUri operation (clock s (ticks s))) in *.
  apply wp_try_catch.
  apply wp_bind, wp_fs_await. intros s2 Hs2.
  pose proof (same_object_trans _ _ _ Hs1 Hs2) as Hs12.
  split; [intros []|intros e; apply wp_throw; by eapply ok_same_object].
  apply wp_bind, wp_fs_await. intros s3 Hs3.
  pose proof (same_object_trans _ _ _ Hs12 Hs3) as Hs13.
  split; [intros info|intros e; apply wp_throw; by eapply ok_same_object].
  apply wp_bind, wp_Date_now. intros now s4 Hs4.
  pose proof (same_object_trans _ _ _ Hs13 Hs4) as [Hi4 Hn4].
  apply wp_bind. unfold set_entry. apply wp_update_index. intros s5 Hi5 Hn5.
  apply wp_bind. unfold add_totalSize. apply wp_update_index.
  intros s6 Hi6 Hn6.
  assert (Hok6 : ok summed env s6).
  { destruct Hok as [Hini Hinv]. split; [congruence|].
    rewrite Hi6, Hi5, Hi4. simpl.
    match goal with |- context [mkCacheEntry ?u ?t ?n] =>
      apply (store_inv_insert _ _ key (mkCacheEntry u t n)) end;
      [done|exact Hfresh|].
    split; simpl; [apply key_for_has_underscore|].
    eexists. split; [apply (extension_has_no_dot sourceUri)|].
    reflexivity. }
  apply wp_bind.
  eapply wp_mono; [apply (saveIndex_ok_inv s6 Hok6)| |]; simpl.
  - intros [] s7 Hok7. apply wp_bind.
    eapply wp_mono; [apply (evictIfNeeded_inv s7 Hok7)| |]; simpl.
    + intros [] s8 Hok8. by apply wp_ret.
    + intros s8 Hok8 e. by apply wp_throw.
  - intros s7 Hok7 e. by apply wp_throw.
Qed.

Lemma saveEdit_inv sourceUri name s :
  ok summed env s ->
  wp (saveEdit env sourceUri name)
     (fun _ => ok summed env) (ok summed env) s.
Proof.
  intros Hok. unfold saveEdit.
  apply wp_initialize_initialized; [apply Hok|].
  apply wp_bind, wp_Date_now. intros now s1 Hs1.
  apply wp_try_catch.
  apply wp_bind, wp_fs_await. intros s2 Hs2.
  pose proof (same_object_trans _ _ _ Hs1 Hs2) as Hs12.
  split; [intros []|intros e; apply wp_throw]; [apply wp_ret|];
    by eapply ok_same_object.
Qed.

Lemma getCached_inv key s :
  ok summed env s ->
  (summed = true -> plain_key (GetCached key) s) ->
  wp (getCached env key)
     (fun _ => ok summed env) (ok summed env) s.
Proof.
  intros Hok Hplain. simpl in Hplain. unfold getCached.
  apply wp_initialize_initialized; [apply Hok|].
  apply wp_bind, wp_get_index.
  destruct (obj_read key (entries (index s))) as [entry| |] eqn:Hread;
    [| |by apply wp_ret].
  - apply obj_read_Own in Hread as Hget.
    apply wp_bind, wp_fs_await. intros s1 [Hi1 Hn1].
    split; [intros info|by apply (ok_same_object s)].
    destruct Hok as [Hini Hinv].
    destruct (negb (exists_ info)).
    + apply wp_bind. unfold delete_entry. apply wp_update_index.
      intros s2 Hi2 Hn2.
      apply wp_bind. unfold sub_totalSize. apply wp_update_index.
      intros s3 Hi3 Hn3.
      assert (Hok3 : ok summed env s3).
      { split; [congruence|]. rewrite Hi3, Hi2, Hi1. simpl.
        by apply store_inv_delete. }
      apply wp_bind.
      eapply wp_mono; [apply (saveIndex_ok_inv s3 Hok3)| |]; simpl; [|done].
      intros [] s4 Hok4. by apply wp_ret.
    + apply wp_bind, wp_Date_now. intros now s2 [Hi2 Hn2].
      apply wp_bind. unfold set_entry. apply wp_update_index.
      intros s3 Hi3 Hn3.
      assert (Hok3 : ok summed env s3).
      { split; [congruence|]. rewrite Hi3, Hi2, Hi1. simpl.
        by apply store_inv_touch. }
      apply wp_bind.
      eapply wp_mono; [apply (saveIndex_ok_inv s3 Hok3)| |]; simpl; [|done].
      intros [] s4 Hok4. by apply wp_ret.
  - assert (Hshape : summed <> true) by (intros Hb; by apply Hplain).
    apply wp_bind, wp_fs_await. intros s1 [Hi1 Hn1].
    split; [intros info|by apply (ok_same_object s)].
    destruct Hok as [Hini Hinv].
    destruct (negb (exists_ info)).
    + apply wp_bind. unfold delete_entry. apply wp_update_index.
      intros s2 Hi2 Hn2.
      apply wp_bind. unfold sub_totalSize. apply wp_update_index.
      intros s3 Hi3 Hn3.
      assert (Hok3 : ok summed env s3).
      { split; [congruence|]. rewrite Hi3, Hi2, Hi1. simpl.
        by apply store_inv_shape. }
      apply wp_bind.
      eapply wp_mono; [apply (saveIndex_ok_inv s3 Hok3)| |]; simpl; [|done].
      intros [] s4 Hok4. by apply wp_ret.
    + apply wp_bind, wp_Date_now. intros now s2 Hs2.
      pose proof (ok_same_object s s2 (conj Hini Hinv)
                    (same_object_trans _ _ _ (conj Hi1 Hn1) Hs2)) as Hok2.
      apply wp_bind.
      eapply wp_mono; [apply (saveIndex_ok_inv s2 Hok2)| |]; simpl; [|done].
      intros [] s4 Hok4. by apply wp_ret.
Qed.

Lemma delete_inv target s :
  ok summed env s ->
  wp (delete env target)
     (fun _ => ok summed env) (ok summed env) s.
Proof.
  intros Hok. unfold delete. apply wp_try_catch.
  apply wp_bind, wp_fs_await. intros s1 Hs1.
  pose proof (ok_same_object _ _ Hok Hs1) as Hok1.
  split; [intros []|intros e; by apply wp_ret].
  apply wp_bind, wp_get_index.
  destruct (find_key target (entries (index s1))) as [[|c key]|] eqn:Hfind;
    try by apply wp_ret.
  apply find_key_Some in Hfind as (entry & Hin & _).
  apply obj_get_elem_of in Hin; [|apply Hok1]. rewrite Hin. simpl.
  apply wp_bind. unfold sub_totalSize. apply wp_update_index.
  intros s2 Hi2 Hn2.
  apply wp_bind. unfold delete_entry. apply wp_update_index.
  intros s3 Hi3 Hn3.
  assert (Hok3 : ok summed env s3).
  { destruct Hok1 as [Hini Hinv]. split; [congruence|].
    rewrite Hi3, Hi2. simpl. by apply store_inv_delete. }
  eapply wp_mono; [apply (saveIndex_ok_inv s3 Hok3)| |]; simpl; [done|].
  intros s4 Hok4 e. by apply wp_ret.
Qed.

Lemma clearCache_inv s :
  ok summed env s ->
  wp (clearCache env)
     (fun _ => ok summed env) (ok summed env) s.
Proof.
  intros Hok. unfold clearCache. apply wp_try_catch.
  apply wp_bind, wp_fs_await. intros s1 Hs1.
  pose proof (ok_same_object _ _ Hok Hs1) as Hok1.
  split; [intros []|intros e; by apply wp_ret].
  apply wp_bind, wp_fs_await. intros s2 Hs2.
  pose proof (ok_same_object _ _ Hok1 Hs2) as Hok2.
  split; [intros []|intros e; by apply wp_ret].
  apply wp_bind, wp_set_index. intros s3 Hi3 Hn3.
  assert (Hok3 : ok summed env s3).
  { destruct Hok2 as [Hini _]. split; [congruence|].
    rewrite Hi3. apply store_inv_empty. }
  eapply wp_mono; [apply (saveIndex_ok_inv s3 Hok3)| |]; simpl; [done|].
  intros s4 Hok4 e. by apply wp_ret.
Qed.

Lemma wp_final {A} (m : M A) (P : state -> Prop) s :
  wp m (fun _ => P) P s -> P (m s).2.
Proof. unfold wp. by destruct (m s) as [[a|e] s']. Qed.

(** Every call on an initialized store keeps the invariant: [totalSize]
    stays the sum of the sizes of the entries (and the entries stay
    managed), as long as [cacheImage] does not generate a key in use. *)
Lemma perform_keeps_invariant c s :
  ok summed env s ->
  (summed = true -> fresh_key c s) ->
  (summed = true -> plain_key c s) ->
  ok summed env (perform env c s).
Proof.
  intros Hok Hfresh Hplain. destruct c; simpl.
  - by rewrite initialize_initialized by apply Hok.
  - by apply wp_final, cacheImage_inv.
  - by apply wp_final, saveEdit_inv.
  - by apply wp_final, getCached_inv.
  - by apply wp_final, delete_inv.
  - by apply wp_final, clearCache_inv.
Qed.

Lemma perform_all_keeps_invariant cs : forall s,
  ok summed env s ->
  (summed = true -> collision_free env cs s) ->
  (summed = true -> plain_lookups env cs s) ->
  ok summed env (perform_all env cs s).
Proof.
  induction cs as [|c cs IH]; intros s Hok Hfree Hplain; simpl; [done|].
  apply IH.
  - apply perform_keeps_invariant; [done| |]; intros Hb;
      [apply (Hfree Hb) | apply (Hplain Hb)].
  - intros Hb. apply (Hfree Hb).
  - intros Hb. apply (Hplain Hb).
Qed.

(** X18. The first [initialize] establishes the invariant of the store
    (no key twice, every entry managed and, when asked for, [totalSize]
    the sum of the sizes), whichever file-system calls fail, when the
    index file, if it is there and parses, holds an index that satisfies
    it. *)
Lemma initialize_establishes_invariant s :
  initialized s = false ->
  store_inv summed (CACHE_DIR env) (index s) ->
  (forall f idx,
     files s !! indexPath env = Some f ->
     JSON_parse env (ftext f) = Some idx ->
     store_inv summed (CACHE_DIR env) idx) ->
  ok summed env (initialize env s).2.
Proof.
  intros Hini Hinv Hdisk.
  cut (wp (initialize env) (fun _ => ok summed env) (fun _ => False) s).
  { unfold wp. by destruct (initialize env s) as [[[]|e] s']. }
  unfold initialize. apply wp_bind, wp_get_initialized. rewrite Hini.
  apply wp_try_catch.
  assert (Hhandler : forall s', forall e : js_error,
    wp (set_index emptyIndex ;; set_initialized true)
       (fun _ => ok summed env) (fun _ => False) s').
  { intros s' _. apply wp_bind, wp_set_index. intros s1 H1 _.
    apply wp_set_initialized. intros s2 H2 Hn2. split; [done|].
    rewrite H2, H1. apply store_inv_empty. }
  apply wp_bind, wp_makeDirectoryAsync. intros s1 [Hi1 _] Hf1.
  split; [|apply Hhandler].
  apply wp_bind, wp_makeDirectoryAsync. intros s2 [Hi2 _] Hf2.
  split; [|apply Hhandler].
  apply wp_bind, wp_getInfoAsync. intros s3 [Hi3 _] Hf3.
  split; [apply Hhandler|]. rewrite Hf2, Hf1.
  assert (Hrest : forall s4, store_inv summed (CACHE_DIR env) (index s4) ->
    wp (set_initialized true ;; cleanup env) (fun _ => ok summed env)
       (fun s' => forall e : js_error,
          wp (set_index emptyIndex ;; set_initialized true)
             (fun _ => ok summed env) (fun _ => False) s')
       s4).
  { intros s4 H4.
    apply wp_bind, wp_set_initialized. intros s5 H5 Hn5.
    eapply wp_mono; [apply (cleanup_inv s5)| |]; simpl;
      [|done|intros s6 _; apply Hhandler].
    split; [done|]. by rewrite H5. }
  destruct (files s !! indexPath env) as [f|] eqn:Hfile.
  - apply wp_bind. simpl.
    apply wp_bind, wp_readAsStringAsync. intros s4 _ Hf4.
    split; [apply Hhandler|]. intros f'. rewrite Hf3, Hf2, Hf1, Hfile.
    intros [= <-].
    destruct (JSON_parse env (ftext f)) as [idx|] eqn:Hparse;
      [|apply wp_throw, Hhandler].
    apply wp_set_index. intros s5 H5 _. apply Hrest.
    rewrite H5. by eapply Hdisk.
  - apply wp_bind, wp_ret. apply Hrest. congruence.
Qed.

End Invariant.

Lemma collision_free_take n : forall cs s,
  collision_free env cs s -> collision_free env (take n cs) s.
Proof.
  induction n as [|n IH]; intros [|c cs] s; simpl; try done.
  intros [Hfresh Hfree]. split; [done|]. by apply IH.
Qed.

Lemma plain_lookups_take n : forall cs s,
  plain_lookups env cs s -> plain_lookups env (take n cs) s.
Proof.
  induction n as [|n IH]; intros [|c cs] s; simpl; try done.
  intros [Hkey Hplain]. split; [done|]. by apply IH.
Qed.

(** X16. Sum consistency, as far as the code has it: on an initialized
    store that satisfies the invariant, after each call of any sequence of
    calls (whether they return or throw, whichever file-system calls fail)
    in which [cacheImage] never generates a key in use, [getCached] is
    never asked for a name the index only inherits from [Object.prototype]
    and the sizes stay byte counts that JavaScript adds up exactly,
    [totalSize] is the sum of the sizes of the entries in the index. *)
Lemma totalSize_is_sum_without_collisions cs s n :
  ok true env s ->
  collision_free env cs s ->
  plain_lookups env cs s ->
  exact_run env cs s ->
  totalSize (index (perform_all env (take n cs) s))
  = Num (sum_sizes (entries (index (perform_all env (take n cs) s)))).
Proof.
  intros Hok Hfree Hplain _.
  apply (perform_all_keeps_invariant true (take n cs) s Hok); [| |done].
  - intros _. by apply collision_free_take.
  - intros _. by apply plain_lookups_take.
Qed.


End ImageCacheProperties.

Lemma evictIfNeeded_evicts_oldest_first_witness :
  exists out o' (t' : Z),
    ImageCache.evicts
      (ImageCache.entries ImageCache.index120) (120 * ImageCache.MiB)
      out o' t' /\
    t' <= ImageCache.EVICTION_TARGET /\
    ImageCache.index
      (ImageCache.evictIfNeeded ImageCache.env0 ImageCache.state120).2
    = {| ImageCache.entries := o'; ImageCache.totalSize := t' |}.
Proof.
  destruct (evictIfNeeded_evicts_oldest_first
              ImageCache.env0 ImageCache.state120)
    as (_ & _ & _ & Hevict).
  destruct (Hevict (120 * ImageCache.MiB))
    as (out & o' & t' & Hev & _ & Htarget & Hrun).
  - reflexivity.
  - by vm_compute.
  - apply (bool_decide_unpack _). by vm_compute.
  - reflexivity.
  - exists out, o', t'. split; [exact Hev|].
    split; [apply Htarget; by vm_compute|].
    by rewrite Hrun.
Defined.

Lemma cacheImage_failed_copy_leaves_index_witness :
  exists cause s',
    ImageCache.cacheImage ImageCache.env0 "file:///photos/gone.jpg" None
      ImageCache.state120
    = (Throws (Error "Failed to cache image" cause), s') /\
    ImageCache.index s' = ImageCache.index120.
Proof.
  destruct (cacheImage_failed_copy_leaves_index ImageCache.env0
              ImageCache.state120 "file:///photos/gone.jpg" None)
    as (cause & s' & Hrun & Hidx & _).
  - left. by vm_compute.
  - exists cause, s'. split; [exact Hrun|]. by rewrite Hidx.
Defined.

Lemma initialize_never_throws_and_falls_back_witness :
  ImageCache.index
    (ImageCache.initialize ImageCache.env1
       (ImageCache.started_with "{ not json")).2
  = ImageCache.emptyIndex /\
  exists s',
    ImageCache.initialize ImageCache.env1 ImageCache.started_later
    = (Returns tt, s') /\
    ImageCache.obj_keys (ImageCache.entries (ImageCache.index s'))
    = ["b_2"; "c_3"] /\
    ImageCache.totalSize (ImageCache.index s') = 80 * ImageCache.MiB /\
    ImageCache.files s' !! "file:///cache/aidit/a_1.jpg" = None.
Proof.
  split.
  - apply (initialize_never_throws_and_falls_back ImageCache.env1
             (ImageCache.started_with "{ not json")).
    + reflexivity.
    + reflexivity.
    + right. eexists. split; by vm_compute.
  - destruct (initialize_never_throws_and_falls_back ImageCache.env1
                ImageCache.started_later)
      as (_ & _ & Hload).
    destruct (Hload eq_refl eq_refl
                {| ImageCache.fsize := 8; ImageCache.ftext := "index120" |}
                ImageCache.index120)
      as (_ & Hrun & _).
    + by vm_compute.
    + by vm_compute.
    + apply (bool_decide_unpack _). by vm_compute.
    + eexists. split; [exact Hrun|]. split; [by vm_compute|].
      split; by vm_compute.
Defined.

Lemma getCached_prunes_stale_or_touches_witness :
  (exists s',
     ImageCache.getCached ImageCache.env0 "b_2" ImageCache.state120_stale
     = (Returns None, s') /\
     ImageCache.getStats s'
     = {| ImageCache.entryCount := 2;
          ImageCache.totalSize_ := 80 * ImageCache.MiB |}) /\
  (exists s',
     ImageCache.getCached ImageCache.env0 "a_1" ImageCache.state120_stale
     = (Returns (Some "file:///cache/aidit/a_1.jpg"), s')).
Proof.
  split.
  - destruct (getCached_prunes_stale_or_touches ImageCache.env0
                ImageCache.state120_stale "b_2"
                (ImageCache.entry40 "b_2" 1002).2)
      as [Hstale _].
    + reflexivity.
    + reflexivity.
    + apply (bool_decide_unpack _). by vm_compute.
    + by vm_compute.
    + destruct Hstale as (s' & Hrun & Hidx & _); [by vm_compute|].
      exists s'. split; [exact Hrun|].
      unfold ImageCache.getStats. by rewrite Hidx.
  - destruct (getCached_prunes_stale_or_touches ImageCache.env0
                ImageCache.state120_stale "a_1"
                (ImageCache.entry40 "a_1" 1001).2)
      as [_ Hlive].
    + reflexivity.
    + reflexivity.
    + apply (bool_decide_unpack _). by vm_compute.
    + by vm_compute.
    + destruct Hlive as (s' & Hrun & _); [eexists; by vm_compute|].
      by exists s'.
Defined.

Lemma delete_twice_is_delete_once_witness :
  exists s1 s2,
    ImageCache.delete ImageCache.env0 "file:///cache/aidit/b_2.jpg"
      ImageCache.state120 = (Returns tt, s1) /\
    ImageCache.delete ImageCache.env0 "file:///cache/aidit/b_2.jpg" s1
    = (Returns tt, s2) /\
    ImageCache.index s2 = ImageCache.index s1 /\
    ImageCache.files s2 = ImageCache.files s1.
Proof.
  destruct (delete_twice_is_delete_once ImageCache.env0 ImageCache.state120
              "file:///cache/aidit/b_2.jpg")
    as (s1 & s2 & H1 & H2 & _ & Hidx & Hfiles & _).
  - reflexivity.
  - repeat split; apply (bool_decide_unpack _); by vm_compute.
  - by exists s1, s2.
Defined.

(** C1 (not met by [cacheImage]). Two calls of [cacheImage] for the same
    source and operation whose keys are generated in the same millisecond
    get the same key: the second entry replaces the first, yet its size is
    added to [totalSize] a second time. Here a 5-byte photo is cached
    twice: the index holds one entry of 5 bytes and a [totalSize] of 10. *)
Theorem cacheImage_same_key_counts_size_twice :
  exists s',
    ImageCache.cache_twice ImageCache.same_millisecond
    = (Returns "file:///cache/aidit/a_enhance_1700000000000.jpg", s') /\
    ImageCache.obj_keys (ImageCache.entries (ImageCache.index s'))
    = ["a_enhance_1700000000000"] /\
    ImageCache.sum_sizes (ImageCache.entries (ImageCache.index s')) = 5 /\
    ImageCache.totalSize (ImageCache.index s') = 10 /\
    ~ ImageCache.consistent (ImageCache.index s').
Proof.
  eexists. split; [by vm_compute|].
  split; [reflexivity|]. split; [reflexivity|]. split; [reflexivity|].
  by vm_compute.
Qed.

(** C4 (as stated, not met). Above the maximum, [evictIfNeeded] does not
    always go on until [totalSize] is at most 0.8 times the maximum: it
    stops when no entry is left. In a store whose one entry of 90 MiB is
    counted twice ([totalSize] 180 MiB) it removes that entry and returns
    with an empty index and a [totalSize] of 90 MiB (94371840), above the
    target of 83886080. Two calls of [cacheImage] for a photo of 90 MiB in
    one millisecond end in just this index. *)
Lemma evictIfNeeded_stops_when_no_entry_is_left :
  ImageCache.totalSize (ImageCache.index ImageCache.counted_twice)
  = 180 * ImageCache.MiB /\
  ImageCache.MAX_CACHE_SIZE < 180 * ImageCache.MiB /\
  exists s',
    ImageCache.evictIfNeeded ImageCache.env0 ImageCache.counted_twice
    = (Returns tt, s') /\
    ImageCache.index s'
    = {| ImageCache.entries := []; ImageCache.totalSize := 94371840 |} /\
    ImageCache.EVICTION_TARGET < 94371840 /\
    ~ (ImageCache.totalSize (ImageCache.index s')
       <= ImageCache.EVICTION_TARGET)%num /\
    exists s1,
      ImageCache.cache_twice ImageCache.same_millisecond90
      = (Returns "file:///cache/aidit/a_enhance_1700000000000.jpg", s1) /\
      ImageCache.index s1 = ImageCache.index s'.
Proof.
  split; [reflexivity|]. split; [by vm_compute|].
  eexists. split; [by vm_compute|]. split; [reflexivity|].
  split; [by vm_compute|]. split; [by vm_compute|].
  eexists. split; by vm_compute.
Qed.

(** * Further properties of the edit-history store *)

Section EditorStoreFurther.

Import EditorStore.

(** *** The list of recent sessions *)

Lemma dispatch_recentEdits_bounded a st st' :
  dispatch a st = Returns st' ->
  (length (recentEdits st) <= 20)%nat ->
  (length (recentEdits st') <= 20)%nat.
Proof.
  destruct a; simpl; try (intros [= <-]; simpl; done).
  - unfold endSession. intros [= <-]; simpl.
    destruct (currentSession st) as [cs|]; [|done].
    destruct (1 <? Z.of_nat (length (history cs))); simpl; [|done].
    rewrite length_take. lia.
  - unfold applyEdit. destruct (currentSession st); by intros [= <-].
  - unfold undo, moveTo. destruct (currentSession st) as [cs|];
      [|by intros [= <-]].
    destruct (historyIndex cs <=? 0); [by intros [= <-]|].
    destruct (js_index _ _); [by intros [= <-]|done].
  - unfold redo, moveTo. destruct (currentSession st) as [cs|];
      [|by intros [= <-]].
    destruct (historyIndex cs >=? _); [by intros [= <-]|].
    destruct (js_index _ _); [by intros [= <-]|done].
  - intros [= <-]; simpl. intros _. rewrite length_take. lia.
  - intros [= <-]; simpl. intros Hlen.
    etrans; [apply length_filter|done].
Qed.

Lemma run_recentEdits_bounded acts : forall st st',
  run acts st = Returns st' ->
  (length (recentEdits st) <= 20)%nat ->
  (length (recentEdits st') <= 20)%nat.
Proof.
  induction acts as [|a acts IH]; intros st st'; simpl.
  - by intros [= <-].
  - destruct (dispatch a st) as [st1|e] eqn:Ha; [|done].
    intros Hrun Hlen. eapply IH; [done|].
    by eapply dispatch_recentEdits_bounded.
Qed.

(** X1. Whatever actions are dispatched from the initial state, the list
    of recent sessions never holds more than 20 sessions: [endSession] and
    [addRecentEdit] cut it to its first 20, and nothing else lets it
    grow. *)
Theorem recentEdits_never_exceed_20 (acts : list action) (n : nat) :
  exists st,
    run (take n acts) initialState = Returns st /\
    (length (recentEdits st) <= 20)%nat.
Proof.
  destruct (run_ok (take n acts) initialState initialState_ok)
    as (st & Hrun & _).
  exists st. split; [done|].
  eapply run_recentEdits_bounded; [done|]. simpl. lia.
Qed.

(** *** The original image at the bottom of the history *)

Lemma dispatch_starts_with_original a st st' :
  dispatch a st = Returns st' ->
  state_ok st ->
  (forall cs, currentSession st = Some cs -> starts_with_original cs) ->
  (forall cs, currentSession st' = Some cs -> starts_with_original cs).
Proof.
  destruct a; simpl; try (intros [= <-]; simpl; done).
  - intros [= <-] _ _ cs [= <-]. by eexists.
  - unfold applyEdit. destruct (currentSession st) as [cs|] eqn:Hcs;
      [|intros [= <-] _ _ cs'; congruence].
    intros [= <-] Hok Horig cs' [= <-].
    destruct (Hok cs Hcs) as [Hb _].
    destruct (Horig cs eq_refl) as (h & Hh & Hu & Ht).
    exists h. simpl. split; [|done].
    rewrite js_slice0_take by lia.
    rewrite lookup_app_l by (rewrite length_take; lia).
    rewrite lookup_take_lt by lia. done.
  - unfold undo, moveTo. destruct (currentSession st) as [cs|] eqn:Hcs;
      [|intros [= <-] _ _ cs'; congruence].
    destruct (historyIndex cs <=? 0);
      [intros [= <-] _ Horig cs' Hcs'; apply Horig; congruence|].
    destruct (js_index _ _); [|done].
    intros [= <-] _ Horig cs' [= <-]. exact (Horig cs eq_refl).
  - unfold redo, moveTo. destruct (currentSession st) as [cs|] eqn:Hcs;
      [|intros [= <-] _ _ cs'; congruence].
    destruct (historyIndex cs >=? _);
      [intros [= <-] _ Horig cs' Hcs'; apply Horig; congruence|].
    destruct (js_index _ _); [|done].
    intros [= <-] _ Horig cs' [= <-]. exact (Horig cs eq_refl).
Qed.

Lemma run_starts_with_original acts : forall st st',
  run acts st = Returns st' ->
  state_ok st ->
  (forall cs, currentSession st = Some cs -> starts_with_original cs) ->
  (forall cs, currentSession st' = Some cs -> starts_with_original cs).
Proof.
  induction acts as [|a acts IH]; intros st st'; simpl.
  - by intros [= <-].
  - destruct (dispatch a st) as [st1|e] eqn:Ha; [|done].
    intros Hrun Hok Horig. eapply IH; [done| |].
    + destruct (dispatch_ok a st Hok) as (st1' & Ha' & Hok1).
      rewrite Ha in Ha'. by injection Ha' as <-.
    + by eapply dispatch_starts_with_original.
Qed.

(** X2. Whatever actions are dispatched from the initial state, the first
    entry of the active session's history is the image the session was
    started with ([originalUri]), carrying no tool: edits, undo and redo
    never replace or drop it. *)
Theorem history_starts_with_original (acts : list action) (n : nat) :
  exists st,
    run (take n acts) initialState = Returns st /\
    forall cs, currentSession st = Some cs ->
      exists h, js_index (history cs) 0 = Some h /\
                uri h = originalUri cs /\ tool h = None.
Proof.
  destruct (run_ok (take n acts) initialState initialState_ok)
    as (st & Hrun & _).
  exists st. split; [done|].
  eapply run_starts_with_original; [done|apply initialState_ok|done].
Qed.

(** *** Undo and redo undo each other *)

Lemma session_ok_lookup cs :
  session_ok cs ->
  exists h, history cs !! Z.to_nat (historyIndex cs) = Some h /\
            uri h = currentUri cs.
Proof.
  intros [Hb Hcur]. unfold activeState in Hcur.
  rewrite js_index_lookup in Hcur by lia.
  destruct (history cs !! Z.to_nat (historyIndex cs)) as [h|]; [|done].
  exists h. split; [done|]. by injection Hcur.
Qed.

(** X3. In a well-formed session, when [canUndo] holds, [undo] followed by
    [redo] brings back the very session (cursor, current uri, history),
    only [updatedAt] being the time of the [redo]; and when [canRedo]
    holds, so does [redo] followed by [undo]. Neither throws. *)
Theorem undo_and_redo_are_inverse (st : EditorState) (cs : EditSession)
    (t1 t2 : Z) :
  currentSession st = Some cs ->
  session_ok cs ->
  (canUndo st = true ->
   exists st1,
     undo t1 st = Returns st1 /\ canRedo st1 = true /\
     redo t2 st1 = Returns (set_currentSession (Some (touched t2 cs)) st)) /\
  (canRedo st = true ->
   exists st1,
     redo t1 st = Returns st1 /\ canUndo st1 = true /\
     undo t2 st1 = Returns (set_currentSession (Some (touched t2 cs)) st)).
Proof.
  intros Hcs Hok. destruct (session_ok_lookup cs Hok) as (h & Hh & Hu).
  destruct Hok as [Hb _].
  unfold canUndo, canRedo, undo, redo. rewrite Hcs. split.
  - intros Hcan%Z.ltb_lt.
    destruct (Z.leb_spec (historyIndex cs) 0); [lia|].
    unfold moveTo.
    destruct (js_index_is_Some (history cs) (historyIndex cs - 1))
      as [h' Hh']; [lia|]. rewrite Hh'.
    eexists. split; [reflexivity|]. simpl.
    split; [apply Z.ltb_lt; lia|].
    destruct (Z.geb_spec (historyIndex cs - 1)
                (Z.of_nat (length (history cs)) - 1)); [lia|].
    replace (historyIndex cs - 1 + 1) with (historyIndex cs) by lia.
    rewrite js_index_lookup, Hh by lia.
    unfold set_currentSession, touched; simpl. by rewrite Hu.
  - intros Hcan%Z.ltb_lt.
    destruct (Z.geb_spec (historyIndex cs)
                (Z.of_nat (length (history cs)) - 1)); [lia|].
    unfold moveTo.
    destruct (js_index_is_Some (history cs) (historyIndex cs + 1))
      as [h' Hh']; [lia|]. rewrite Hh'.
    eexists. split; [reflexivity|]. simpl.
    split; [apply Z.ltb_lt; lia|].
    destruct (Z.leb_spec (historyIndex cs + 1) 0); [lia|].
    replace (historyIndex cs + 1 - 1) with (historyIndex cs) by lia.
    rewrite js_index_lookup, Hh by lia.
    unfold set_currentSession, touched; simpl. by rewrite Hu.
Qed.

Lemma undo_and_redo_are_inverse_witness :
  exists st1,
    redo 5000 (set_currentSession (Some sessionB) initialState)
    = Returns st1 /\ canUndo st1 = true /\
    undo 6000 st1
    = Returns (set_currentSession (Some (touched 6000 sessionB))
                 initialState).
Proof.
  apply (undo_and_redo_are_inverse
           (set_currentSession (Some sessionB) initialState) sessionB
           5000 6000).
  - reflexivity.
  - split; [simpl; lia | reflexivity].
  - reflexivity.
Defined.

(** *** Edits in a row *)

Lemma run_ApplyEdits edits : forall st cs,
  currentSession st = Some cs ->
  historyIndex cs = Z.of_nat (length (history cs)) - 1 ->
  0 <= historyIndex cs ->
  exists st' cs',
    run (ApplyEdits edits) st = Returns st' /\
    currentSession st' = Some cs' /\
    history cs' = history cs ++ (state_of <$> edits) /\
    historyIndex cs' = Z.of_nat (length (history cs')) - 1 /\
    originalUri cs' = originalUri cs /\
    currentUri cs' = default (currentUri cs) (last (uri <$> (state_of <$> edits))).
Proof.
  induction edits as [|e edits IH]; intros st cs Hcs Hidx Hpos; simpl.
  - exists st, cs. by rewrite app_nil_r.
  - unfold applyEdit. rewrite Hcs.
    rewrite js_slice0_take by lia.
    rewrite take_ge by lia.
    match goal with
    | |- context [run _ (set_currentSession (Some ?c) st)] =>
        destruct (IH (set_currentSession (Some c) st) c)
          as (st' & cs' & Hrun & Hcs' & Hhist & Hidx' & Horig & Hcur);
          [reflexivity|reflexivity|simpl; rewrite length_app; simpl; lia|]
    end.
    exists st', cs'. split; [exact Hrun|]. split; [done|].
    simpl in Hhist, Horig, Hcur.
    split; [by rewrite Hhist, <- app_assoc|]. split; [done|].
    split; [done|]. rewrite Hcur.
    destruct edits as [|e' edits]; simpl; [done|].
    match goal with |- context [last ?l] =>
      destruct (proj2 (last_is_Some l)) as [y ->]; done
    end.
Qed.

(** X4. Starting a session and applying edits one after the other, with
    no undo in between, records them in order: the history is the
    original image followed by one state per edit, the cursor is on the
    last of them, the current uri is the uri of the last edit (the
    original's when there is none), and nothing is left to redo. *)
Theorem edits_are_recorded_in_order (st0 : EditorState) (imageUri : string)
    (tId tState tCreated tUpdated : Z) (edits : list edit) :
  exists st cs,
    run (StartSession imageUri tId tState tCreated tUpdated
           :: ApplyEdits edits) st0 = Returns st /\
    currentSession st = Some cs /\
    history cs
    = {| uri := imageUri; timestamp := tState; tool := None |}
        :: (state_of <$> edits) /\
    historyIndex cs = Z.of_nat (length edits) /\
    originalUri cs = imageUri /\
    currentUri cs = default imageUri (last (uri <$> (state_of <$> edits))) /\
    canUndo st = bool_decide (edits <> []) /\
    canRedo st = false.
Proof.
  cbn [run dispatch]. unfold startSession.
  match goal with
  | |- context [run _ (mkEditorState (Some ?c) ?a1 ?a2 ?a3 ?a4 ?a5 ?a6 ?a7)] =>
      destruct (run_ApplyEdits edits
                  (mkEditorState (Some c) a1 a2 a3 a4 a5 a6 a7) c)
        as (st & cs & Hrun & Hcs & Hhist & Hidx & Horig & Hcur);
        [reflexivity|reflexivity|simpl; lia|]
  end.
  exists st, cs. split; [exact Hrun|]. split; [done|].
  simpl in Hhist, Horig, Hcur. split; [done|].
  assert (Hlen : historyIndex cs = Z.of_nat (length edits)).
  { rewrite Hidx, Hhist. simpl. rewrite length_fmap. lia. }
  split; [done|]. split; [done|]. split; [done|].
  unfold canUndo, canRedo. rewrite Hcs. split.
  - rewrite Hlen. destruct edits; [done|].
    rewrite bool_decide_true by done. apply Z.ltb_lt.
    rewrite length_cons. lia.
  - apply Z.ltb_ge. lia.
Qed.

(** *** What [endSession] archives *)

Lemma dispatch_archived_ok a st st' :
  is_AddRecentEdit a = false ->
  dispatch a st = Returns st' ->
  state_ok st ->
  Forall archived_ok (recentEdits st) ->
  Forall archived_ok (recentEdits st').
Proof.
  destruct a; simpl; intros Hadd; try done;
    try (intros [= <-]; simpl; done).
  - unfold endSession. cbv zeta.
    destruct (currentSession st) as [cs|] eqn:Hcs; [|by intros [= <-]].
    destruct (Z.ltb_spec 1 (Z.of_nat (length (history cs))));
      intros [= <-] Hok Hall; simpl; [|done].
    constructor; [split; [by apply Hok|lia] | by apply Forall_take].
  - unfold applyEdit. destruct (currentSession st); by intros [= <-].
  - unfold undo, moveTo. destruct (currentSession st) as [cs|];
      [|by intros [= <-]].
    destruct (historyIndex cs <=? 0); [by intros [= <-]|].
    destruct (js_index _ _); [by intros [= <-]|done].
  - unfold redo, moveTo. destruct (currentSession st) as [cs|];
      [|by intros [= <-]].
    destruct (historyIndex cs >=? _); [by intros [= <-]|].
    destruct (js_index _ _); [by intros [= <-]|done].
  - intros [= <-] _ Hall; simpl. rewrite Forall_forall in Hall |- *.
    intros cs [_ Hin]%list_elem_of_filter. by apply Hall.
Qed.

(** X5. As long as no session is put among the recent ones directly
    ([addRecentEdit]), every recent session was archived by [endSession]:
    it has at least one edit (two history entries or more), its cursor is
    inside its history and its current uri is the uri under the cursor. *)
Theorem archived_sessions_have_edits (acts : list action) (n : nat) :
  forallb (fun a => negb (is_AddRecentEdit a)) acts = true ->
  exists st,
    run (take n acts) initialState = Returns st /\
    Forall archived_ok (recentEdits st).
Proof.
  intros Hacts.
  assert (Hgen : forall l st,
    forallb (fun a => negb (is_AddRecentEdit a)) l = true ->
    state_ok st -> Forall archived_ok (recentEdits st) ->
    exists st', run l st = Returns st' /\
                Forall archived_ok (recentEdits st')).
  { induction l as [|a l IH]; intros st Hl Hok Hall; simpl; [by eauto|].
    simpl in Hl. apply andb_true_iff in Hl as [Ha Hl].
    apply negb_true_iff in Ha.
    destruct (dispatch_ok a st Hok) as (st1 & Hst1 & Hok1). rewrite Hst1.
    apply IH; [done|done|]. by eapply dispatch_archived_ok. }
  apply Hgen; [|apply initialState_ok|constructor].
  revert n. induction acts as [|a acts IH]; intros [|n]; simpl; try done.
  simpl in Hacts. apply andb_true_iff in Hacts as [-> Hacts]. simpl.
  by apply IH.
Qed.

Lemma archived_sessions_have_edits_witness :
  exists st,
    run (StartSession "orig.jpg" 1000 1000 1000 1000
           :: ApplyEdits three_edits ++ [Undo 5000; EndSession])
        initialState = Returns st /\
    Forall archived_ok (recentEdits st).
Proof.
  apply (archived_sessions_have_edits
           (StartSession "orig.jpg" 1000 1000 1000 1000
              :: ApplyEdits three_edits ++ [Undo 5000; EndSession]) 6).
  reflexivity.
Defined.

(** *** What changes the list of recent sessions *)

Lemma dispatch_keeps_recentEdits a st st' :
  changes_recent a = false ->
  dispatch a st = Returns st' ->
  recentEdits st' = recentEdits st.
Proof.
  destruct a; simpl; intros Ha; try done; try by intros [= <-].
  - unfold applyEdit. destruct (currentSession st); by intros [= <-].
  - unfold undo, moveTo. destruct (currentSession st) as [cs|];
      [|by intros [= <-]].
    destruct (historyIndex cs <=? 0); [by intros [= <-]|].
    destruct (js_index _ _); [by intros [= <-]|done].
  - unfold redo, moveTo. destruct (currentSession st) as [cs|];
      [|by intros [= <-]].
    destruct (historyIndex cs >=? _); [by intros [= <-]|].
    destruct (js_index _ _); [by intros [= <-]|done].
Qed.

(** X6. Only [endSession], [addRecentEdit] and [removeRecentEdit] change
    the list of recent sessions. In particular [startSession] does not
    archive the session it replaces: a session with edits that is replaced
    without an [endSession] is in no list afterwards. *)
Theorem only_endSession_archives (acts : list action) (st st' : EditorState) :
  forallb (fun a => negb (changes_recent a)) acts = true ->
  run acts st = Returns st' ->
  recentEdits st' = recentEdits st.
Proof.
  revert st. induction acts as [|a acts IH]; intros st; simpl.
  - by intros _ [= <-].
  - intros [Ha Hacts]%andb_true_iff. apply negb_true_iff in Ha.
    destruct (dispatch a st) as [st1|e] eqn:Hst1; [|done].
    intros Hrun. rewrite (IH st1 Hacts Hrun).
    by eapply dispatch_keeps_recentEdits.
Qed.

Lemma only_endSession_archives_witness :
  exists st,
    run (StartSession "orig.jpg" 1000 1000 1000 1000
           :: ApplyEdits three_edits
           ++ [StartSession "other.jpg" 5000 5000 5000 5000])
        initialState = Returns st /\
    (originalUri <$> currentSession st) = Some "other.jpg" /\
    recentEdits st = [].
Proof.
  eexists. split; [reflexivity|]. split; [reflexivity|].
  by apply (only_endSession_archives
              (StartSession "orig.jpg" 1000 1000 1000 1000
                 :: ApplyEdits three_edits
                 ++ [StartSession "other.jpg" 5000 5000 5000 5000])
              initialState).
Defined.

End EditorStoreFurther.

(** * Further properties of the image cache *)

Section ImageCacheFurther.

Import ImageCache.

Context (env : Env).

#[local] Arguments lookup : simpl never.
#[local] Arguments insert : simpl never.
#[local] Arguments filter : simpl never.

(** *** [cleanup] *)

(** X7. [cleanup], run at time [now] on a store whose file-system calls
    succeed, removes exactly the entries whose timestamp is more than
    [MAX_CACHE_AGE] (7 days) before [now] (an entry of exactly that age
    stays), keeps the others in their order, takes the removed sizes off
    [totalSize], deletes the removed entries' files and then writes the
    index once. *)
Theorem cleanup_removes_the_expired (s : state) :
  faults s = [] ->
  obj_wf (entries (index s)) ->
  let now := clock s (ticks s) in
  let gone := filter (expired now) (entries (index s)) in
  let idx' :=
    {| entries := filter (fun kv => ~ expired now kv) (entries (index s));
       totalSize := totalSize (index s) - sum_sizes gone |} in
  MAX_CACHE_AGE = 604800000 /\
  (forall kv, kv ∈ entries idx' <->
     kv ∈ entries (index s) /\ now - timestamp kv.2 <= MAX_CACHE_AGE) /\
  cleanup env s
  = (Returns tt,
     {| index := idx';
        initialized := initialized s;
        files := <[indexPath env := index_file env idx']>
                   (delete_files gone (files s));
        faults := [];
        clock := clock s;
        ticks := S (ticks s);
        calls := calls s
                 ++ ((fun kv => Delete (uri kv.2)) <$> gone)
                 ++ [WriteAsString (indexPath env)
                       (JSON_stringify env idx')] |}).
Proof.
  destruct s as [[o t] ini fs fl clk tk cl]; simpl. intros -> Hwf.
  split; [reflexivity|]. split.
  - intros kv. rewrite list_elem_of_filter. unfold expired. split.
    + intros [Hage Hin]. split; [done|lia].
    + intros [Hin Hage]. split; [lia|done].
  - unfold cleanup, mbind, M_bind, Date_now, get_index; simpl.
    rewrite cleanup_loop_spec. simpl.
    rewrite (delete_filtered (expired (clk tk)) o []) by done. simpl.
    rewrite saveIndex_ok. by rewrite <- app_assoc.
Qed.

(** *** [clearCache] *)

Lemma prefix_append p rest : String.prefix p (p +:+ rest) = true.
Proof.
  induction p as [|c p IH]; [by destruct rest|].
  rewrite append_cons. simpl. by destruct (ascii_dec c c).
Qed.

Lemma ends_with_slash_append d :
  ends_with_slash (d +:+ "aidit/") = true.
Proof.
  induction d as [|c d IH]; [done|]. rewrite append_cons.
  simpl. rewrite IH. by destruct (d +:+ "aidit/").
Qed.

Lemma within_CACHE_DIR rest :
  FileSystem.within (CACHE_DIR env) (CACHE_DIR env +:+ rest) = true.
Proof.
  unfold FileSystem.within, CACHE_DIR.
  rewrite ends_with_slash_append, prefix_append. apply orb_true_r.
Qed.

Lemma try_catch_returns {A} (body : M A) (a0 : A) s :
  exists a s', try_catch body (fun _ => mret a0) s = (Returns a, s').
Proof.
  unfold try_catch. destruct (body s) as [[a|e] s']; by eauto.
Qed.

(** X8. [clearCache] never throws, whichever file-system call fails. When
    the calls succeed it leaves the empty index (no entries, [totalSize]
    0), written out to the index file; every other file of the cache
    directory is gone, and every file outside the cache directory (the
    saved edits, when kept elsewhere) is as it was. *)
Theorem clearCache_empties_the_cache_only (s : state) :
  (exists s', clearCache env s = (Returns tt, s')) /\
  (faults s = [] ->
   exists s',
     clearCache env s = (Returns tt, s') /\
     index s' = emptyIndex /\
     getStats s' = {| entryCount := 0; totalSize_ := 0 |} /\
     files s' !! indexPath env = Some (index_file env emptyIndex) /\
     (forall p, FileSystem.within (CACHE_DIR env) p = true ->
                p <> indexPath env -> files s' !! p = None) /\
     (forall p, FileSystem.within (CACHE_DIR env) p = false ->
                files s' !! p = files s !! p) /\
     calls s' = calls s ++ [Delete (CACHE_DIR env);
                            MakeDirectory (CACHE_DIR env);
                            WriteAsString (indexPath env)
                              (JSON_stringify env emptyIndex)]).
Proof.
  split.
  - destruct (try_catch_returns
                (FileSystem.deleteAsync (CACHE_DIR env) ;;
                 FileSystem.makeDirectoryAsync (CACHE_DIR env) ;;
                 set_index emptyIndex ;; saveIndex env) tt s)
      as ([] & s' & Hrun).
    by exists s'.
  - destruct s as [idx ini fs fl clk tk cl]; simpl. intros ->.
    eexists. split; [reflexivity|]. simpl.
    split; [done|]. split; [done|].
    split; [by rewrite lookup_insert_eq|]. split; [|split].
    + intros p Hin Hp. rewrite lookup_insert_ne by done.
      apply map_lookup_filter_None. right. intros f _. simpl. by rewrite Hin.
    + intros p Hout. rewrite lookup_insert_ne.
      * unfold FileSystem.without.
        destruct (fs !! p) as [f|] eqn:Hp.
        -- by apply map_lookup_filter_Some.
        -- apply map_lookup_filter_None. by left.
      * intros <-. unfold indexPath in Hout.
        by rewrite within_CACHE_DIR in Hout.
    + by rewrite <- !app_assoc.
Qed.

(** *** [saveEdit] *)

(** X9. [saveEdit] on an initialized store never changes the index,
    whatever fails. When the file system answers, it copies the source to
    the permanent directory, under the given name or else
    [edit_<time>], with the extension of the source, and returns that
    uri; when the source does not exist it throws "Failed to save edit"
    and writes nothing. *)
Theorem saveEdit_copies_and_leaves_the_index
    (s : state) (sourceUri : string) (name : option string) :
  initialized s = true ->
  index (saveEdit env sourceUri name s).2 = index s /\
  (faults s = [] ->
   let destUri :=
     EDITS_DIR env
     +:+ or_else name ("edit_" +:+ pretty (clock s (ticks s)))
     +:+ "." +:+ or_else (last (split "." sourceUri)) "jpg" in
   exists s',
     match files s !! sourceUri with
     | Some f =>
         saveEdit env sourceUri name s = (Returns destUri, s') /\
         files s' = <[destUri := f]> (files s)
     | None =>
         saveEdit env sourceUri name s
         = (Throws (Error "Failed to save edit" (FsError "copyAsync")), s') /\
         files s' = files s
     end /\
     calls s' = calls s ++ [Copy sourceUri destUri]).
Proof.
  intros Hini. split.
  - assert (H : wp (saveEdit env sourceUri name)
                  (fun _ s' => index s' = index s)
                  (fun s' => index s' = index s) s).
    { unfold saveEdit. apply wp_initialize_initialized; [done|].
      apply wp_bind, wp_Date_now. intros now s1 [Hs1 _].
      apply wp_try_catch.
      apply wp_bind, wp_fs_await. intros s2 [Hs2 _].
      split; [intros []|intros e; apply wp_throw]; [apply wp_ret|];
        congruence. }
    unfold wp in H. by destruct (saveEdit env sourceUri name s) as [[?|?] ?].
  - destruct s as [idx ini fs fl clk tk cl]; simpl in *. subst ini.
    intros ->.
    unfold saveEdit, initialize, try_catch, mbind, M_bind, get_initialized,
      Date_now, FileSystem.copyAsync, fs_await; simpl.
    destruct (fs !! sourceUri) as [f|]; simpl;
      (eexists; split; [split; [reflexivity|done]|done]).
Qed.

(** *** [cacheImage] when the file system answers *)

(** The uri [cacheImage] copies to, the entry it records and the index it
    has before it turns to eviction. *)
Lemma cacheImage_runs sourceUri operation idx fs clk tk cl f :
  fs !! sourceUri = Some f ->
  let key := key_for sourceUri operation (clk tk) in
  let destUri := cached_uri env sourceUri key in
  let idx1 := inserted key (cached_entry destUri (clk (S tk)) f) idx in
  cacheImage env sourceUri operation (mkState idx true fs [] clk tk cl)
  = match evictIfNeeded env
            (mkState idx1 true
               (<[indexPath env := index_file env idx1]>
                  (<[destUri := f]> fs))
               [] clk (S (S tk))
               (cl ++ [Copy sourceUri destUri; GetInfo destUri;
                       WriteAsString (indexPath env)
                         (JSON_stringify env idx1)]))
    with
    | (Returns _, s') => (Returns destUri, s')
    | (Throws e, s') => (Throws (Error "Failed to cache image" e), s')
    end.
Proof.
  intros Hsrc key destUri idx1.
  unfold cacheImage, initialize, generateKey, try_catch, mbind, M_bind,
    get_initialized, Date_now, FileSystem.copyAsync,
    FileSystem.getInfoAsync, fs_await; simpl.
  rewrite Hsrc; simpl. fold key. fold destUri.
  rewrite lookup_insert_eq; simpl.
  rewrite <- !app_assoc. simpl.
  unfold idx1, inserted, cached_entry, index_file; simpl.
  by destruct (evictIfNeeded env _) as [[[]|e] s'].
Qed.

Lemma evictIfNeeded_bounds idx ini fs clk tk cl :
  obj_wf (entries idx) -> consistent idx ->
  exists s',
    evictIfNeeded env (mkState idx ini fs [] clk tk cl) = (Returns tt, s') /\
    (totalSize (index s') <= MAX_CACHE_SIZE)%num /\
    consistent (index s') /\
    ((totalSize idx <= MAX_CACHE_SIZE)%num ->
     s' = mkState idx ini fs [] clk tk cl).
Proof.
  destruct idx as [o n]. unfold consistent; simpl. intros Hwf ->.
  unfold evictIfNeeded, mbind, M_bind, get_index; simpl.
  destruct (Z.leb_spec (sum_sizes o) MAX_CACHE_SIZE) as [Hle|Hgt].
  - eexists. split; [reflexivity|]. simpl.
    split; [by apply Z.leb_le|done].
  - destruct (evict_loop_spec (sort_by_timestamp o) o (sum_sizes o) ini fs
                clk tk cl eq_refl Hwf) as (out & o' & t' & Hev & Hrun).
    rewrite Hrun, saveIndex_ok.
    destruct (evicts_reaches_target _ _ _ _ _ Hev Hwf eq_refl)
      as [Hsum' Hle].
    eexists. split; [reflexivity|]. simpl.
    split; [|split; [by rewrite Hsum'|]].
    + apply Z.leb_le. etrans; [exact Hle|]. by vm_compute.
    + intros Hroom%Z.leb_le. lia.
Qed.

(** X10. A call of [cacheImage] on an initialized, consistent store, for a
    source that exists, with a key not in use and a file system that
    answers, returns the uri [<cache dir><key>.<extension>] and leaves a
    consistent index whose [totalSize] is at most [MAX_CACHE_SIZE]. When
    the new total does not exceed the maximum nothing is evicted: the
    index is the old one with the new entry last, its size added, and the
    copy and the index file are the only files written. *)
Theorem cacheImage_keeps_the_cache_bounded
    (s : state) (sourceUri : string) (operation : option string) (f : file) :
  initialized s = true ->
  faults s = [] ->
  files s !! sourceUri = Some f ->
  obj_wf (entries (index s)) ->
  consistent (index s) ->
  let key := key_for sourceUri operation (clock s (ticks s)) in
  obj_get key (entries (index s)) = None ->
  let destUri := cached_uri env sourceUri key in
  let idx1 :=
    inserted key (cached_entry destUri (clock s (S (ticks s))) f) (index s) in
  exists s',
    cacheImage env sourceUri operation s = (Returns destUri, s') /\
    (totalSize (index s') <= MAX_CACHE_SIZE)%num /\
    consistent (index s') /\
    ((totalSize (index s) + fsize f <= MAX_CACHE_SIZE)%num ->
     index s' = idx1 /\
     entries idx1 = entries (index s)
                    ++ [(key, cached_entry destUri (clock s (S (ticks s))) f)] /\
     files s' = <[indexPath env := index_file env idx1]>
                  (<[destUri := f]> (files s))).
Proof.
  destruct s as [idx ini fs fl clk tk cl]; simpl.
  intros -> -> Hsrc Hwf Hsum Hfresh.
  rewrite (cacheImage_runs _ _ _ _ _ _ _ f Hsrc).
  set (key := key_for sourceUri operation (clk tk)) in *.
  set (destUri := cached_uri env sourceUri key).
  set (entry := cached_entry destUri (clk (S tk)) f).
  assert (Hwf1 : obj_wf (entries (inserted key entry idx))).
  { unfold inserted; simpl. rewrite (obj_set_fresh _ _ _ Hfresh).
    unfold obj_wf, obj_keys in *. rewrite fmap_app. simpl.
    apply NoDup_app. split; [done|]. split; [|apply NoDup_singleton].
    intros k Hk ->%list_elem_of_singleton.
    by apply (obj_get_None_keys _ _ Hfresh). }
  assert (Hsum1 : consistent (inserted key entry idx)).
  { unfold consistent, inserted in *; simpl.
    rewrite (obj_set_fresh _ _ _ Hfresh), sum_sizes_app, Hsum; simpl.
    f_equal. unfold sum_sizes; simpl. lia. }
  edestruct (evictIfNeeded_bounds (inserted key entry idx))
    as (s' & -> & Hle & Hsum' & Hsame); [exact Hwf1|exact Hsum1|].
  exists s'. split; [reflexivity|]. split; [done|]. split; [done|].
  intros Hroom. rewrite (Hsame Hroom). simpl. split; [done|].
  split; [|done]. by rewrite (obj_set_fresh _ _ _ Hfresh).
Qed.

(** *** Caching, looking up, deleting *)

Lemma evictIfNeeded_room idx ini fs clk tk cl :
  (totalSize idx <= MAX_CACHE_SIZE)%num ->
  evictIfNeeded env (mkState idx ini fs [] clk tk cl)
  = (Returns tt, mkState idx ini fs [] clk tk cl).
Proof.
  intros Hle. unfold evictIfNeeded, mbind, M_bind, get_index; simpl.
  by rewrite Hle.
Qed.

(** X11. What [cacheImage] stores, [getCached] finds: after a call of
    [cacheImage] that had room (the new total within the maximum), on a
    file system that answers, [getCached] with the generated key returns
    the very uri [cacheImage] returned. *)
Theorem getCached_finds_what_cacheImage_stored
    (s : state) (sourceUri : string) (operation : option string) (f : file) :
  initialized s = true ->
  faults s = [] ->
  files s !! sourceUri = Some f ->
  (totalSize (index s) + fsize f <= MAX_CACHE_SIZE)%num ->
  let key := key_for sourceUri operation (clock s (ticks s)) in
  exists s1 s2,
    cacheImage env sourceUri operation s
    = (Returns (cached_uri env sourceUri key), s1) /\
    getCached env key s1
    = (Returns (Some (cached_uri env sourceUri key)), s2).
Proof.
  destruct s as [idx ini fs fl clk tk cl]; simpl.
  intros -> -> Hsrc Hroom.
  rewrite (cacheImage_runs _ _ _ _ _ _ _ f Hsrc).
  rewrite evictIfNeeded_room by done.
  eexists _, _. split; [reflexivity|].
  unfold getCached, initialize, mbind, M_bind, get_initialized, get_index;
    simpl.
  rewrite (obj_read_own _ _ _ (obj_get_set _ _ _)). simpl.
  unfold FileSystem.getInfoAsync, fs_await; simpl.
  match goal with |- context [(<[?p := ?x]> ?m) !! ?q] =>
    destruct ((<[p := x]> m) !! q) as [f'|] eqn:Hlook end.
  - reflexivity.
  - exfalso. apply lookup_insert_None in Hlook as [Hlook _].
    by rewrite lookup_insert_eq in Hlook.
Qed.

Lemma find_none_app {A} (p : A -> bool) l1 l2 :
  (forall x, x ∈ l1 -> p x = false) ->
  List.find p (l1 ++ l2) = List.find p l2.
Proof.
  induction l1 as [|x l1 IH]; simpl; intros Hp; [done|].
  rewrite (Hp x) by left. apply IH. intros y Hy. apply Hp. by right.
Qed.

Lemma obj_get_app_l {V} (o1 o2 : obj V) k :
  k ∈ obj_keys o1 -> obj_get k (o1 ++ o2) = obj_get k o1.
Proof.
  unfold obj_keys. induction o1 as [|[k' v'] o1 IH]; simpl.
  - intros Hin. by apply elem_of_nil in Hin.
  - case_decide; [done|]. intros [->|Hin]%elem_of_cons; [done|]. by apply IH.
Qed.

Lemma obj_get_app_r {V} (o1 o2 : obj V) k :
  k ∉ obj_keys o1 -> obj_get k (o1 ++ o2) = obj_get k o2.
Proof.
  unfold obj_keys. induction o1 as [|[k' v'] o1 IH]; simpl; [done|].
  intros Hk. rewrite decide_False by (intros ->; apply Hk; left).
  apply IH. intros Hin. apply Hk. by right.
Qed.

Lemma obj_keys_get {V} (o : obj V) k :
  k ∈ obj_keys o -> exists v, obj_get k o = Some v.
Proof.
  unfold obj_keys. induction o as [|[k' v'] o IH]; simpl.
  - intros Hin. by apply elem_of_nil in Hin.
  - case_decide; [by eauto|]. intros [->|Hin]%elem_of_cons; [done|].
    by apply IH.
Qed.

(** The key of a new managed entry is the one [find_key] finds for its
    uri. *)
Lemma find_key_inserted (o : obj CacheEntry) key entry :
  Forall (managed (CACHE_DIR env)) o ->
  managed (CACHE_DIR env) (key, entry) ->
  key ∉ obj_keys o ->
  find_key (uri entry) (o ++ [(key, entry)]) = Some key.
Proof.
  intros Hman Hnew Hkey. unfold find_key, obj_keys. rewrite fmap_app.
  rewrite find_none_app.
  - simpl. rewrite obj_get_app_r by done. simpl.
    rewrite decide_True by done. by rewrite bool_decide_true.
  - intros k Hk. rewrite obj_get_app_l by done.
    destruct (obj_keys_get o k Hk) as [e He]. rewrite He.
    apply bool_decide_eq_false. intros Huri.
    apply obj_get_Some_elem_of in He. rewrite Forall_forall in Hman.
    assert (k = key) as ->; [|done].
    by apply (managed_uri_inj env (k, e) (key, entry)); [apply Hman| |].
Qed.

(** X12. Deleting what was just cached undoes the caching in the index:
    on an initialized store with a well-shaped index, after a call of
    [cacheImage] with an unused key that had room, [delete] of the
    returned uri leaves the index (entries and [totalSize]) exactly as it
    was before the two calls, and the cached copy is gone. *)
Theorem delete_undoes_cacheImage
    (s : state) (sourceUri : string) (operation : option string) (f : file) :
  ok false env s ->
  faults s = [] ->
  files s !! sourceUri = Some f ->
  (totalSize (index s) + fsize f <= MAX_CACHE_SIZE)%num ->
  let key := key_for sourceUri operation (clock s (ticks s)) in
  obj_get key (entries (index s)) = None ->
  exists s1 s2,
    cacheImage env sourceUri operation s
    = (Returns (cached_uri env sourceUri key), s1) /\
    delete env (cached_uri env sourceUri key) s1 = (Returns tt, s2) /\
    index s2 = index s /\
    files s2 !! cached_uri env sourceUri key = None.
Proof.
  destruct s as [[o t] ini fs fl clk tk cl]; simpl.
  intros [Hini (_ & Hwf & Hman)]; simpl in *. subst ini.
  intros -> Hsrc Hroom Hfresh.
  set (key := key_for sourceUri operation (clk tk)) in *.
  set (destUri := cached_uri env sourceUri key).
  set (entry := cached_entry destUri (clk (S tk)) f).
  rewrite (cacheImage_runs _ _ _ _ _ _ _ f Hsrc).
  rewrite evictIfNeeded_room by done.
  eexists _, _. split; [reflexivity|].
  assert (Hnew : managed (CACHE_DIR env) (key, entry)).
  { split; [apply key_for_has_underscore|].
    eexists. split; [apply (extension_has_no_dot sourceUri)|done]. }
  rewrite delete_ok. simpl. fold key destUri entry.
  rewrite (obj_set_fresh _ _ _ Hfresh).
  pose proof (obj_get_None_keys _ _ Hfresh) as Hkey.
  assert (Hfind : find_key destUri (o ++ [(key, entry)]) = Some key)
    by exact (find_key_inserted o key entry Hman Hnew Hkey).
  rewrite Hfind.
  destruct key as [|c key'] eqn:Hk; [by destruct Hnew|]. rewrite <- Hk in *.
  split; [reflexivity|]. simpl.
  rewrite obj_get_app_r by done. simpl. rewrite decide_True by done. simpl.
  rewrite (obj_delete_middle o key entry []) by done. rewrite app_nil_r.
  split; [f_equal; apply num_add_sub|].
  rewrite lookup_insert_ne; [apply without_lookup_target|].
  intros Heq. pose proof (managed_not_index_file env _ Hnew) as Hnot.
  simpl in Hnot. fold destUri in Hnot.
  by rewrite <- Heq, within_refl in Hnot.
Qed.

(** *** The keys [generateKey] builds *)

Lemma split_nonempty sep s : exists x xs, split sep s = x :: xs.
Proof.
  destruct (split_segments sep s) as [Hne _].
  destruct (split sep s) as [|x xs]; [done|by eauto].
Qed.

(** [(a + sep + b).split(sep)] is [a.split(sep)] followed by
    [b.split(sep)]. *)
Lemma split_append sep a b :
  split sep (a +:+ String sep b) = split sep a ++ split sep b.
Proof.
  induction a as [|c a IH].
  - rewrite append_nil. simpl. by rewrite Ascii.eqb_refl.
  - rewrite append_cons. simpl. rewrite IH.
    destruct (Ascii.eqb c sep); [done|].
    by destruct (split_nonempty sep a) as (x & xs & ->).
Qed.

Lemma split_free sep s : has_char sep s = false -> split sep s = [s].
Proof.
  induction s as [|c s IH]; simpl; [done|].
  intros [Hc Hs]%orb_false_elim. rewrite Hc, (IH Hs). done.
Qed.

(** Appending a text without the separator extends the last segment. *)
Lemma split_extend sep s tail :
  has_char sep tail = false ->
  exists init l,
    split sep s = init ++ [l] /\
    split sep (s +:+ tail) = init ++ [l +:+ tail].
Proof.
  intros Hfree. induction s as [|c s (init & l & Hs & Hst)].
  - exists [], "". rewrite !append_nil. by rewrite (split_free sep tail).
  - rewrite append_cons. simpl. rewrite Hs, Hst.
    destruct (Ascii.eqb c sep); [by exists ("" :: init), l|].
    destruct init as [|x init]; simpl.
    + by exists [], (String c l).
    + by exists (String c x :: init), l.
Qed.

Lemma head_app_nonempty {A} (l1 l2 : list A) :
  l1 <> [] -> head (l1 ++ l2) = head l1.
Proof. by destruct l1. Qed.

(** X13. The key depends on the source only through the name of its file,
    without directory and without extension, and on the time only
    through the millisecond: a source in another directory or with
    another extension gets the same key at the same time, while for one
    source and one operation the keys of two different milliseconds
    differ; no key is empty. *)
Theorem key_for_ignores_directory_and_extension
    (dir name ext : string) (operation : option string) (t1 t2 : Z) :
  key_for (dir +:+ "/" +:+ name) operation t1 = key_for name operation t1 /\
  (has_char "/" ext = false ->
   key_for (name +:+ "." +:+ ext) operation t1 = key_for name operation t1) /\
  (key_for name operation t1 = key_for name operation t2 -> t1 = t2) /\
  key_for name operation t1 <> "".
Proof.
  split; [|split; [|split]].
  - unfold key_for.
    change (dir +:+ "/" +:+ name) with (dir +:+ String "/" name).
    rewrite split_append.
    destruct (split_nonempty "/" name) as (x & xs & Hx).
    rewrite last_app. destruct (last_is_Some (split "/" name)) as [_ Hl].
    destruct Hl as [y Hy]; [by rewrite Hx|]. by rewrite Hy.
  - intros Hext. unfold key_for.
    destruct (split_extend "/" name ("." +:+ ext)) as (init & l & Hs & Hst).
    { change ("." +:+ ext) with (String "." ext). simpl. by rewrite Hext. }
    rewrite Hs, Hst, !last_snoc. simpl.
    change (l +:+ "." +:+ ext) with (l +:+ String "." ext).
    rewrite split_append, head_app_nonempty; [done|].
    by destruct (split_nonempty "." l) as (x & xs & ->).
  - unfold key_for. intros Heq.
    do 3 apply (inj (String.app _)) in Heq.
    by apply (inj pretty) in Heq.
  - intros Hnil. pose proof (key_for_has_underscore name operation t1) as Hu.
    by rewrite Hnil in Hu.
Qed.

(** *** Failures [delete] keeps to itself *)

(** X14. [delete] never throws: a failure is logged and not passed on.
    When the file system rejects the deletion the caller cannot tell:
    [delete] returns all the same, with the file still there and the
    index untouched. *)
Theorem delete_swallows_failures (s : state) (target : string) :
  (exists s', delete env target s = (Returns tt, s')) /\
  (head (faults s) = Some true ->
   exists s',
     delete env target s = (Returns tt, s') /\
     files s' = files s /\ index s' = index s /\
     calls s' = calls s ++ [Delete target]).
Proof.
  split.
  - unfold delete.
    match goal with |- context [try_catch ?body _] =>
      destruct (try_catch_returns body tt s) as ([] & s' & Hrun)
    end.
    by exists s'.
  - destruct s as [idx ini fs [|[|] fl] clk tk cl]; simpl; try done.
    intros _. by eexists.
Qed.

(** *** An image larger than the cache *)

Lemma obj_delete_other {V} (o : obj V) k x :
  x ∈ o -> x.1 <> k -> x ∈ obj_delete k o.
Proof.
  induction o as [|[k0 v0] o IH]; simpl; [done|].
  intros [->|Hin]%elem_of_cons Hne.
  - simpl in Hne. rewrite decide_False by done. left.
  - case_decide; [done|]. right. by apply IH.
Qed.

(** Every entry is either evicted or kept, and what is kept was there. *)
Lemma evicts_partition o t out o' t' :
  evicts o t out o' t' -> obj_wf o ->
  (forall x, x ∈ o -> x ∈ out \/ x ∈ o') /\
  (forall x, x ∈ o' -> x ∈ o).
Proof.
  induction 1 as [o t _|o t key entry out o' t' Hgt Hold _ IH]; intros Hwf.
  - split; [by right|done].
  - destruct (IH (obj_delete_wf o key Hwf)) as [Hall Hsub]. split.
    + intros [k e] Hin. destruct (decide (k = key)) as [->|Hne].
      * apply (obj_get_elem_of _ _ _ Hwf) in Hin.
        apply oldest_elem_of, (obj_get_elem_of _ _ _ Hwf) in Hold.
        assert (e = entry) as -> by congruence. left. left.
      * destruct (Hall (k, e)) as [?|?];
          [by apply obj_delete_other|left; by right|by right].
    + intros x Hx. eapply obj_delete_elem_of, Hsub, Hx.
Qed.

Lemma sum_sizes_elem_of o x :
  Forall (fun kv => 0 <= size kv.2) o -> x ∈ o -> size x.2 <= sum_sizes o.
Proof.
  unfold sum_sizes. induction o as [|y o IH]; simpl.
  - intros _ Hin. by apply elem_of_nil in Hin.
  - intros [Hy Ho]%Forall_cons [->|Hin]%elem_of_cons.
    + assert (0 <= foldr (fun kv acc => size kv.2 + acc) 0 o); [|lia].
      clear IH. induction Ho as [|z o Hz Ho IHo]; simpl; lia.
    + specialize (IH Ho Hin). lia.
Qed.

Lemma delete_files_None out : forall fs p,
  fs !! p = None -> delete_files out fs !! p = None.
Proof.
  induction out as [|x out IH]; intros fs p Hp; simpl; [done|].
  apply IH. apply map_lookup_filter_None. by left.
Qed.

Lemma delete_files_evicted out : forall fs x,
  x ∈ out -> delete_files out fs !! uri x.2 = None.
Proof.
  induction out as [|y out IH]; intros fs x Hin; simpl.
  - by apply elem_of_nil in Hin.
  - apply elem_of_cons in Hin as [->|Hin]; [|by apply IH].
    apply delete_files_None, without_lookup_target.
Qed.

(** X15. An image larger than the whole cache is cached only to be
    evicted at once: on a consistent store (sizes not negative) and a file
    system that answers, [cacheImage] of a source larger than
    [MAX_CACHE_SIZE] returns normally, with a uri, but at that uri there is
    no file any more and the index has no entry under the generated
    key. *)
Theorem cacheImage_of_oversized_image_returns_dangling_uri
    (s : state) (sourceUri : string) (operation : option string) (f : file) :
  initialized s = true ->
  faults s = [] ->
  files s !! sourceUri = Some f ->
  MAX_CACHE_SIZE < fsize f ->
  obj_wf (entries (index s)) ->
  consistent (index s) ->
  Forall (fun kv => 0 <= size kv.2) (entries (index s)) ->
  let key := key_for sourceUri operation (clock s (ticks s)) in
  obj_get key (entries (index s)) = None ->
  exists s',
    cacheImage env sourceUri operation s
    = (Returns (cached_uri env sourceUri key), s') /\
    files s' !! cached_uri env sourceUri key = None /\
    obj_get key (entries (index s')) = None.
Proof.
  destruct s as [[o n] ini fs fl clk tk cl]; simpl.
  intros -> -> Hsrc Hbig Hwf Hsum Hpos Hfresh.
  unfold consistent in Hsum; simpl in Hsum. subst n.
  remember (sum_sizes o) as t eqn:Hsum.
  rewrite (cacheImage_runs _ _ _ _ _ _ _ f Hsrc).
  set (key := key_for sourceUri operation (clk tk)) in *.
  set (destUri := cached_uri env sourceUri key).
  set (entry := cached_entry destUri (clk (S tk)) f).
  pose proof (obj_get_None_keys _ _ Hfresh) as Hkey.
  assert (Hnew : managed (CACHE_DIR env) (key, entry)).
  { split; [apply key_for_has_underscore|].
    eexists. split; [apply (extension_has_no_dot sourceUri)|done]. }
  assert (Hwf1 : obj_wf (o ++ [(key, entry)])).
  { unfold obj_wf, obj_keys in *. rewrite fmap_app. simpl.
    apply NoDup_app. split; [done|]. split; [|apply NoDup_singleton].
    by intros k Hk ->%list_elem_of_singleton. }
  assert (Hsum1 : t + fsize f = sum_sizes (o ++ [(key, entry)])).
  { rewrite sum_sizes_app, <- Hsum. unfold sum_sizes; simpl. lia. }
  assert (Hpos1 : Forall (fun kv => 0 <= size kv.2) (o ++ [(key, entry)])).
  { apply Forall_app. split; [done|]. apply Forall_singleton. simpl.
    pose proof (eq_refl : MAX_CACHE_SIZE = 104857600). lia. }
  assert (Ht : 0 <= t).
  { rewrite Hsum. clear -Hpos.
    unfold sum_sizes. induction Hpos as [|z o Hz Ho IHo]; simpl; lia. }
  unfold evictIfNeeded, inserted, mbind, M_bind, get_index; simpl.
  rewrite (obj_set_fresh _ _ _ Hfresh).
  destruct (Z.leb_spec (t + fsize f) MAX_CACHE_SIZE) as [Hle|Hgt]; [lia|].
  destruct (evict_loop_spec (sort_by_timestamp (o ++ [(key, entry)]))
              (o ++ [(key, entry)]) (t + fsize f)
              true (<[indexPath env :=
                        index_file env
                          {| entries := o ++ [(key, entry)];
                             totalSize := t + fsize f |}]>
                      (<[destUri := f]> fs))
              clk (S (S tk))
              (cl ++ [Copy sourceUri destUri; GetInfo destUri;
                      WriteAsString (indexPath env)
                        (JSON_stringify env
                           {| entries := o ++ [(key, entry)];
                              totalSize := t + fsize f |})])
              eq_refl Hwf1) as (out & o' & t' & Hev & Hrun).
  simpl in Hev, Hrun. rewrite Hrun, saveIndex_ok.
  destruct (evicts_reaches_target _ _ _ _ _ Hev Hwf1 Hsum1) as [Hsum' Hle].
  destruct (evicts_partition _ _ _ _ _ Hev Hwf1) as [Hall Hsub].
  assert (Hgone : (key, entry) ∉ o').
  { intros Hin.
    assert (Hpos' : Forall (fun kv => 0 <= size kv.2) o').
    { rewrite Forall_forall in Hpos1 |- *. intros x Hx.
      by apply Hpos1, Hsub. }
    pose proof (sum_sizes_elem_of o' _ Hpos' Hin) as Hsize. simpl in Hsize.
    pose proof (eq_refl : EVICTION_TARGET = 83886080).
    pose proof (eq_refl : MAX_CACHE_SIZE = 104857600). lia. }
  destruct (Hall (key, entry)) as [Hout|Hkept];
    [apply elem_of_app; right; left| |done].
  eexists. split; [reflexivity|]. simpl. split.
  - rewrite lookup_insert_ne.
    + by apply (delete_files_evicted out _ (key, entry)).
    + intros Heq. pose proof (managed_not_index_file env _ Hnew) as Hnot.
      simpl in Hnot. fold destUri in Hnot.
      by rewrite <- Heq, within_refl in Hnot.
  - destruct (obj_get key o') as [e'|] eqn:Hget; [|done].
    apply obj_get_Some_elem_of in Hget. destruct Hgone.
    pose proof (Hsub _ Hget) as Hin.
    apply (obj_get_elem_of _ _ _ Hwf1) in Hin.
    rewrite obj_get_app_r in Hin by done. simpl in Hin.
    rewrite decide_True in Hin by done. by injection Hin as <-.
Qed.

(** *** A call that throws and caches all the same *)

(** X19. A call of [cacheImage] can throw and still have cached the image:
    when the copy and the look-up of its size succeed and the file system
    rejects the write of the index file, [cacheImage] throws its error,
    wrapping that rejection, yet the copy is on the device and its entry
    is in the index in memory, counted in [totalSize] and, for a key not
    in use, in the entry count of [getStats]; only the index file is as it
    was. *)
Theorem cacheImage_failed_save_keeps_the_entry
    (s : state) (sourceUri : string) (operation : option string) (f : file)
    (fl : list bool) :
  initialized s = true ->
  faults s = false :: false :: true :: fl ->
  files s !! sourceUri = Some f ->
  let key := key_for sourceUri operation (clock s (ticks s)) in
  let destUri := cached_uri env sourceUri key in
  exists s',
    cacheImage env sourceUri operation s
    = (Throws (Error "Failed to cache image" (FsError "writeAsStringAsync")),
       s') /\
    index s'
    = inserted key (cached_entry destUri (clock s (S (ticks s))) f) (index s) /\
    files s' = <[destUri := f]> (files s) /\
    totalSize_ (getStats s') = (totalSize_ (getStats s) + fsize f)%num /\
    (obj_get key (entries (index s)) = None ->
     entryCount (getStats s') = entryCount (getStats s) + 1).
Proof.
  destruct s as [idx ini fs fls clk tk cl]; simpl.
  intros -> -> Hsrc.
  unfold cacheImage, initialize, generateKey, try_catch, mbind, M_bind,
    get_initialized, Date_now, FileSystem.copyAsync,
    FileSystem.getInfoAsync, fs_await; simpl.
  rewrite Hsrc; simpl.
  fold (cached_uri env sourceUri (key_for sourceUri operation (clk tk))).
  rewrite lookup_insert_eq; simpl.
  eexists. split; [reflexivity|]. simpl.
  split; [reflexivity|]. split; [reflexivity|].
  unfold getStats; simpl. split; [reflexivity|].
  intros Hfresh. rewrite (obj_set_fresh _ _ _ Hfresh).
  unfold obj_keys. rewrite fmap_app, length_app. simpl. lia.
Qed.

(** *** Names the index inherits *)

Lemma evict_loop_NaN l : forall o ini fs clk tk cl,
  evict_loop l (mkState {| entries := o; totalSize := NaN |} ini fs [] clk tk cl)
  = (Returns tt,
     mkState {| entries := foldl (fun o kv => obj_delete kv.1 o) o l;
                totalSize := NaN |}
             ini (delete_files l fs) [] clk tk
             (cl ++ ((fun kv => Delete (uri kv.2)) <$> l))).
Proof.
  induction l as [|[k e] l IH]; intros o ini fs clk tk cl.
  - simpl. by rewrite app_nil_r.
  - specialize (IH (obj_delete k o) ini (delete_files [(k, e)] fs) clk tk
                  (cl ++ [Delete (uri e)])).
    simpl in IH |- *. unfold mbind, M_bind, get_index; simpl.
    rewrite IH. by rewrite <- app_assoc.
Qed.

Lemma delete_all {V} (l : list (string * V)) : forall o : obj V,
  l ≡ₚ o -> obj_wf o -> foldl (fun o kv => obj_delete kv.1 o) o l = [].
Proof.
  induction l as [|[k v] l IH]; intros o Hperm Hwf.
  - symmetry in Hperm. by apply Permutation_nil_r in Hperm as ->.
  - assert (Hin : (k, v) ∈ o) by (rewrite <- Hperm; left).
    apply list_elem_of_split in Hin as (front & back & ->).
    assert (Hk : k ∉ obj_keys front).
    { unfold obj_wf, obj_keys in *. rewrite fmap_app in Hwf.
      apply NoDup_app in Hwf as (_ & Hdisj & _).
      intros Hin. apply (Hdisj k Hin). left. }
    cbn [foldl fst]. rewrite obj_delete_middle by done. apply IH.
    + rewrite <- Permutation_middle in Hperm.
      by apply Permutation_cons_inv in Hperm.
    + rewrite <- (obj_delete_middle front k v back Hk).
      by apply obj_delete_wf.
Qed.

(** X20. Asked for a name that the index only inherits from
    [Object.prototype] (such as ["constructor"] or ["toString"]),
    [getCached] does not take the key for missing: in an initialized store
    whose file system answers it asks the file system about [undefined],
    leaves the entries as they are, turns [totalSize] into [NaN], writes
    the index out and returns [null]. With [totalSize] [NaN] no comparison
    holds any more: the next [evictIfNeeded] removes every entry, deleting
    the files one by one, oldest first. *)
Theorem getCached_of_inherited_name_spoils_totalSize
    (s : state) (key : string) :
  initialized s = true ->
  faults s = [] ->
  key ∈ Object_prototype ->
  obj_get key (entries (index s)) = None ->
  let idx' := {| entries := entries (index s); totalSize := NaN |} in
  getCached env key s
  = (Returns None,
     {| index := idx';
        initialized := true;
        files := <[indexPath env := index_file env idx']> (files s);
        faults := [];
        clock := clock s;
        ticks := ticks s;
        calls := calls s ++ [GetInfoUndefined;
                             WriteAsString (indexPath env)
                               (JSON_stringify env idx')] |}) /\
  (obj_wf (entries (index s)) ->
   forall ini fs clk tk cl,
     let emptied := {| entries := []; totalSize := NaN |} in
     let snapshot := sort_by_timestamp (entries (index s)) in
     evictIfNeeded env (mkState idx' ini fs [] clk tk cl)
     = (Returns tt,
        mkState emptied ini
          (<[indexPath env := index_file env emptied]>
             (delete_files snapshot fs))
          [] clk tk
          (cl ++ ((fun kv => Delete (uri kv.2)) <$> snapshot)
              ++ [WriteAsString (indexPath env)
                    (JSON_stringify env emptied)]))).
Proof.
  destruct s as [[o n] ini0 fs0 fl clk0 tk0 cl0]; simpl.
  intros -> -> Hname Hget. split.
  - unfold getCached, initialize, mbind, M_bind, get_initialized, get_index,
      FileSystem.getInfoAsync_undefined, fs_await, obj_read; simpl.
    rewrite Hget, bool_decide_eq_true_2 by done. simpl.
    assert (Hsame : obj_delete key o = o).
    { clear -Hget. induction o as [|[k v] o IH]; simpl in *; [done|].
      case_decide; [done|]. by rewrite IH. }
    rewrite Hsame. destruct n; simpl; by rewrite <- app_assoc.
  - intros Hwf ini fs clk tk cl.
    unfold evictIfNeeded, mbind, M_bind, get_index; simpl.
    rewrite evict_loop_NaN.
    rewrite (delete_all (sort_by_timestamp o) o) by
      (done || apply sort_by_timestamp_perm).
    rewrite saveIndex_ok. by rewrite <- app_assoc.
Qed.

End ImageCacheFurther.

Lemma cleanup_removes_the_expired_witness :
  exists s',
    ImageCache.cleanup ImageCache.env0 ImageCache.state120_later
    = (Returns tt, s') /\
    ImageCache.obj_keys (ImageCache.entries (ImageCache.index s'))
    = ["b_2"; "c_3"] /\
    ImageCache.totalSize (ImageCache.index s') = 80 * ImageCache.MiB.
Proof.
  destruct (cleanup_removes_the_expired ImageCache.env0
              ImageCache.state120_later) as (_ & _ & Hrun).
  - reflexivity.
  - apply (bool_decide_unpack _). by vm_compute.
  - eexists. split; [exact Hrun|]. split; by vm_compute.
Defined.

(** *** The further properties at work *)

Lemma index80_managed :
  Forall (ImageCache.managed (ImageCache.CACHE_DIR ImageCache.env0))
         (ImageCache.entries ImageCache.index80).
Proof.
  repeat constructor; exists "jpg"; by split.
Qed.

Lemma state80_ok b : ImageCache.ok b ImageCache.env0 ImageCache.state80.
Proof.
  split; [reflexivity|]. split; [intros _; by vm_compute|].
  split; [apply (bool_decide_unpack _); by vm_compute|].
  apply index80_managed.
Qed.

Lemma clearCache_empties_the_cache_only_witness :
  exists s',
    ImageCache.clearCache ImageCache.env0 ImageCache.state80
    = (Returns tt, s') /\
    ImageCache.files s' !! "file:///cache/aidit/a_1.jpg" = None /\
    ImageCache.files s' !! "file:///photos/p.jpg"
    = ImageCache.files ImageCache.state80 !! "file:///photos/p.jpg".
Proof.
  destruct (clearCache_empties_the_cache_only ImageCache.env0
              ImageCache.state80) as [_ Hclear].
  destruct Hclear as (s' & Hrun & _ & _ & _ & Hin & Hout & _);
    [reflexivity|].
  exists s'. split; [exact Hrun|]. split.
  - apply Hin; by vm_compute.
  - apply Hout. by vm_compute.
Defined.

Lemma saveEdit_copies_and_leaves_the_index_witness :
  exists s',
    ImageCache.saveEdit ImageCache.env0 "file:///photos/p.jpg"
      (Some "final") ImageCache.state80
    = (Returns "file:///doc/aidit/edits/final.jpg", s') /\
    ImageCache.index s' = ImageCache.index80.
Proof.
  destruct (saveEdit_copies_and_leaves_the_index ImageCache.env0
              ImageCache.state80 "file:///photos/p.jpg" (Some "final"))
    as [Hidx Hrun]; [reflexivity|].
  destruct Hrun as (s' & Hrun & _); [reflexivity|].
  assert (Hsrc : ImageCache.files ImageCache.state80
                 !! "file:///photos/p.jpg"
                 = Some {| ImageCache.fsize := 10 * ImageCache.MiB;
                           ImageCache.ftext := "" |}) by (by vm_compute).
  rewrite Hsrc in Hrun. destruct Hrun as [Hrun _].
  exists s'. split; [exact Hrun|].
  rewrite Hrun in Hidx. exact Hidx.
Defined.

Lemma cacheImage_keeps_the_cache_bounded_witness :
  exists s',
    ImageCache.cacheImage ImageCache.env0 "file:///photos/p.jpg"
      (Some "enhance") ImageCache.state80
    = (Returns "file:///cache/aidit/p_enhance_2000.jpg", s') /\
    (ImageCache.totalSize (ImageCache.index s')
     <= ImageCache.MAX_CACHE_SIZE)%num.
Proof.
  destruct (cacheImage_keeps_the_cache_bounded ImageCache.env0
              ImageCache.state80 "file:///photos/p.jpg" (Some "enhance")
              {| ImageCache.fsize := 10 * ImageCache.MiB;
                 ImageCache.ftext := "" |})
    as (s' & Hrun & Hle & _).
  - reflexivity.
  - reflexivity.
  - by vm_compute.
  - apply (bool_decide_unpack _). by vm_compute.
  - by vm_compute.
  - by vm_compute.
  - exists s'. split; [exact Hrun|exact Hle].
Defined.

Lemma getCached_finds_what_cacheImage_stored_witness :
  exists s1 s2,
    ImageCache.cacheImage ImageCache.env0 "file:///photos/p.jpg"
      (Some "enhance") ImageCache.state80
    = (Returns "file:///cache/aidit/p_enhance_2000.jpg", s1) /\
    ImageCache.getCached ImageCache.env0 "p_enhance_2000" s1
    = (Returns (Some "file:///cache/aidit/p_enhance_2000.jpg"), s2).
Proof.
  apply (getCached_finds_what_cacheImage_stored ImageCache.env0
           ImageCache.state80 "file:///photos/p.jpg" (Some "enhance")
           {| ImageCache.fsize := 10 * ImageCache.MiB;
              ImageCache.ftext := "" |}).
  - reflexivity.
  - reflexivity.
  - by vm_compute.
  - by vm_compute.
Defined.

Lemma delete_undoes_cacheImage_witness :
  exists s1 s2,
    ImageCache.cacheImage ImageCache.env0 "file:///photos/p.jpg"
      (Some "enhance") ImageCache.state80
    = (Returns "file:///cache/aidit/p_enhance_2000.jpg", s1) /\
    ImageCache.delete ImageCache.env0
      "file:///cache/aidit/p_enhance_2000.jpg" s1 = (Returns tt, s2) /\
    ImageCache.index s2 = ImageCache.index80.
Proof.
  destruct (delete_undoes_cacheImage ImageCache.env0
              ImageCache.state80 "file:///photos/p.jpg" (Some "enhance")
              {| ImageCache.fsize := 10 * ImageCache.MiB;
                 ImageCache.ftext := "" |})
    as (s1 & s2 & H1 & H2 & Hidx & _).
  - apply state80_ok.
  - reflexivity.
  - by vm_compute.
  - by vm_compute.
  - by vm_compute.
  - match type of H1 with
    | _ = (Returns ?u, _) =>
        assert (Huri : u = "file:///cache/aidit/p_enhance_2000.jpg")
          by (by vm_compute);
        rewrite Huri in H1, H2
    end.
    exists s1, s2. split; [exact H1|]. split; [exact H2|exact Hidx].
Defined.

Lemma key_for_ignores_directory_and_extension_witness :
  ImageCache.key_for "file:///photos/p.jpg" (Some "enhance") 2000
  = ImageCache.key_for "p.png" (Some "enhance") 2000.
Proof.
  destruct (key_for_ignores_directory_and_extension
              "file:///photos" "p.jpg" "jpg" (Some "enhance") 2000 2000)
    as (Hdir & _).
  destruct (key_for_ignores_directory_and_extension
              "" "p" "jpg" (Some "enhance") 2000 2000) as (_ & Hjpg & _).
  destruct (key_for_ignores_directory_and_extension
              "" "p" "png" (Some "enhance") 2000 2000) as (_ & Hpng & _).
  change ("file:///photos" +:+ "/" +:+ "p.jpg")
    with "file:///photos/p.jpg" in Hdir.
  rewrite Hdir.
  change ("p" +:+ "." +:+ "jpg") with "p.jpg" in Hjpg.
  change ("p" +:+ "." +:+ "png") with "p.png" in Hpng.
  by rewrite Hjpg, Hpng.
Defined.

Lemma delete_swallows_failures_witness :
  exists s',
    ImageCache.delete ImageCache.env0 "file:///cache/aidit/a_1.jpg"
      ImageCache.state80_failing = (Returns tt, s') /\
    ImageCache.files s' = ImageCache.files80 /\
    ImageCache.index s' = ImageCache.index80.
Proof.
  destruct (delete_swallows_failures ImageCache.env0
              ImageCache.state80_failing "file:///cache/aidit/a_1.jpg")
    as [_ Hfail].
  destruct Hfail as (s' & Hrun & Hfiles & Hidx & _); [reflexivity|].
  by exists s'.
Defined.

Lemma cacheImage_of_oversized_image_returns_dangling_uri_witness :
  exists s',
    ImageCache.cacheImage ImageCache.env0 "file:///photos/pano.jpg" None
      ImageCache.state80
    = (Returns "file:///cache/aidit/pano_2000.jpg", s') /\
    ImageCache.files s' !! "file:///cache/aidit/pano_2000.jpg" = None.
Proof.
  destruct (cacheImage_of_oversized_image_returns_dangling_uri
              ImageCache.env0 ImageCache.state80
              "file:///photos/pano.jpg" None
              {| ImageCache.fsize := 110 * ImageCache.MiB;
                 ImageCache.ftext := "" |})
    as (s' & Hrun & Hfile & _).
  - reflexivity.
  - reflexivity.
  - by vm_compute.
  - by vm_compute.
  - apply (bool_decide_unpack _). by vm_compute.
  - by vm_compute.
  - repeat constructor; by vm_compute.
  - by vm_compute.
  - match type of Hrun with
    | _ = (Returns ?u, _) =>
        assert (Huri : u = "file:///cache/aidit/pano_2000.jpg")
          by (by vm_compute);
        rewrite Huri in Hrun, Hfile
    end.
    exists s'. split; [exact Hrun|exact Hfile].
Defined.

Lemma totalSize_is_sum_without_collisions_witness :
  ImageCache.totalSize
    (ImageCache.index
       (ImageCache.perform_all ImageCache.env0 ImageCache.calls80
          ImageCache.state80))
  = Num (ImageCache.sum_sizes
           (ImageCache.entries
              (ImageCache.index
                 (ImageCache.perform_all ImageCache.env0 ImageCache.calls80
                    ImageCache.state80)))).
Proof.
  apply (totalSize_is_sum_without_collisions ImageCache.env0
           ImageCache.calls80 ImageCache.state80 6).
  - apply state80_ok.
  - cbn [ImageCache.calls80 ImageCache.collision_free ImageCache.fresh_key].
    repeat split; by vm_compute.
  - cbn [ImageCache.calls80 ImageCache.plain_lookups ImageCache.plain_key].
    repeat split; by vm_compute.
  - cbn [ImageCache.calls80 ImageCache.exact_run].
    do 7 (split; [split; apply (bool_decide_unpack _); by vm_compute|]).
    exact I.
Defined.


Lemma initialize_establishes_invariant_witness :
  ImageCache.ok true ImageCache.env1
    (ImageCache.initialize ImageCache.env1
       (ImageCache.started_with "index120")).2.
Proof.
  apply initialize_establishes_invariant.
  - reflexivity.
  - apply store_inv_empty.
  - intros f idx Hf Hparse.
    assert (Hfile : ImageCache.files (ImageCache.started_with "index120")
                    !! ImageCache.indexPath ImageCache.env1
                    = Some {| ImageCache.fsize := 8;
                              ImageCache.ftext := "index120" |})
      by (by vm_compute).
    rewrite Hfile in Hf. injection Hf as <-.
    injection Hparse as <-.
    split; [intros _; by vm_compute|].
    split; [apply (bool_decide_unpack _); by vm_compute|].
    repeat constructor; exists "jpg"; by split.
Defined.

Lemma cacheImage_failed_save_keeps_the_entry_witness :
  exists s',
    ImageCache.cacheImage ImageCache.env0 "file:///photos/p.jpg"
      (Some "enhance") ImageCache.state80_unsaved
    = (Throws (Error "Failed to cache image" (FsError "writeAsStringAsync")),
       s') /\
    ImageCache.totalSize (ImageCache.index s') = 90 * ImageCache.MiB /\
    ImageCache.entryCount (ImageCache.getStats s') = 3.
Proof.
  destruct (cacheImage_failed_save_keeps_the_entry ImageCache.env0
              ImageCache.state80_unsaved "file:///photos/p.jpg"
              (Some "enhance")
              {| ImageCache.fsize := 10 * ImageCache.MiB;
                 ImageCache.ftext := "" |} [])
    as (s' & Hrun & Hidx & _ & _ & Hcount).
  - reflexivity.
  - reflexivity.
  - by vm_compute.
  - exists s'. split; [exact Hrun|]. split.
    + rewrite Hidx. by vm_compute.
    + rewrite Hcount; by vm_compute.
Defined.

Lemma getCached_of_inherited_name_spoils_totalSize_witness :
  exists s' s'',
    ImageCache.getCached ImageCache.env0 "constructor" ImageCache.state80
    = (Returns None, s') /\
    ImageCache.obj_keys (ImageCache.entries (ImageCache.index s'))
    = ["a_1"; "b_2"] /\
    ImageCache.totalSize (ImageCache.index s') = NaN /\
    ImageCache.evictIfNeeded ImageCache.env0 s' = (Returns tt, s'') /\
    ImageCache.entries (ImageCache.index s'') = [].
Proof.
  destruct (getCached_of_inherited_name_spoils_totalSize ImageCache.env0
              ImageCache.state80 "constructor") as [Hrun Hevict].
  - reflexivity.
  - reflexivity.
  - apply (bool_decide_unpack _). by vm_compute.
  - by vm_compute.
  - eexists _, _. split; [exact Hrun|]. split; [reflexivity|].
    split; [reflexivity|].
    split; [apply Hevict; apply (bool_decide_unpack _); by vm_compute|].
    reflexivity.
Defined.
